(** * The consistent-hash ring of [ring/ring.go]

    A shallow embedding of the ring engine: the descriptor data model, the
    replica resolver ([search], [getInternal], [Get], [BatchGet]), the watch
    callback of [loop] and the ownership computation of [Collect], followed
    by the properties established about them.

    Conventions.
    - [uint32] values are integers in [Z]; the arithmetic of [Collect] wraps
      modulo 2^32 ([wrap32]).
    - Go's [int] is [Z] for the replica count [n] (it is only incremented, at
      most once per token) and [nat] for slice indices and loop counters,
      which stay within [0 .. len(Tokens)].
    - A Go call either returns its [(value, error)] pair or panics:
      [outcome].  A [nil] slice is the empty list.
    - [float64] is Rocq's primitive binary64 float, whose division and
      addition round to nearest even as Go's do.
    - The read/write mutex is not part of the embedding: every function is
      the sequential code run against one descriptor. *)

From Stdlib Require Import ZArith QArith Lia.
From Stdlib Require Uint63 PrimFloat FloatOps SpecFloat.
From stdpp Require Import base gmap strings list sorting fin_maps fin_sets.

#[local] Set Warnings "-clear-no-such-hyp".

Local Open Scope string_scope.
Local Open Scope list_scope.
Local Open Scope Z_scope.

(** ** Data model *)

(** [type Operation int] with [Read], [Write]. *)
Inductive Operation := Read | Write.

(** Modelled from the spec: the token lifecycle state, whose Go declaration
    lives outside [ring.go]; the source only names [Leaving].  The spec lists
    Active, Leaving and further states that are passed through. *)
Inductive TokenState := Active | Leaving | OtherState (code : Z).

Definition isLeaving (s : TokenState) : bool :=
  match s with Leaving => true | _ => false end.

(** Modelled from the spec: [TokenDesc], declared outside [ring.go]; the
    fields are the ones [ring.go] reads ([Token], [Ingester], [State]). *)
Record TokenDesc := mkToken {
  Token : Z;
  Ingester : string;
  State : TokenState
}.

(** Modelled from the spec: [IngesterDesc] (the spec's NodeInfo), declared
    outside [ring.go]: an identifier, an opaque address and the heartbeat
    [Timestamp] that [ring.go] reads. *)
Record IngesterDesc := mkIngester {
  Hostname : string;
  Address : string;
  Timestamp : Z
}.

(** The zero value of [IngesterDesc], what a Go map yields for a missing key. *)
Definition zeroIngesterDesc : IngesterDesc := mkIngester "" "" 0.

(** Modelled from the spec: [Desc], declared outside [ring.go], with the two
    fields [ring.go] uses. *)
Record Desc := mkDesc {
  Ingesters : gmap string IngesterDesc;
  Tokens : list TokenDesc
}.

(** The part of [Ring] the sequential code depends on. *)
Record Ring := mkRing {
  ringDesc : Desc;
  heartbeatTimeout : Z
}.

(** [ErrEmptyRing = errors.New("empty circle")]. *)
Inductive error := ErrEmptyRing.

Inductive outcome (A : Type) :=
| Returns (v : A) (err : option error)
| Panics.
Arguments Returns {A} v err.
Arguments Panics {A}.

(** [m[k]] on a Go map: the zero value when [k] is missing. *)
Definition mapIndex (m : gmap string IngesterDesc) (k : string) : IngesterDesc :=
  default zeroIngesterDesc (m !! k).

(** ** [sort.Search] and [search] *)

(** The loop of Go's [sort.Search(n, f)]:
    [i, j := 0, n; for i < j { h := int(uint(i+j) >> 1); if !f(h) { i = h + 1 } else { j = h } }; return i].
    The predicate may panic ([None]); the panic is propagated. *)
Fixpoint sortSearchLoop (fuel : nat) (f : nat → option bool) (i j : nat) : option nat :=
  match fuel with
  | O => Some i
  | S fuel' =>
      if (i <? j)%nat then
        let h := ((i + j) / 2)%nat in
        match f h with
        | None => None
        | Some false => sortSearchLoop fuel' f (h + 1)%nat j
        | Some true => sortSearchLoop fuel' f i h
        end
      else Some i
  end.

Definition sortSearch (n : nat) (f : nat → option bool) : option nat :=
  sortSearchLoop n f 0%nat n.

(** [func (r *Ring) search(key uint32) int]; [None] is an index-out-of-range
    panic of [Tokens[x]]. *)
Definition search (r : Ring) (key : Z) : option nat :=
  let tokens := Tokens (ringDesc r) in
  match sortSearch (length tokens)
          (λ x, match tokens !! x with
                | Some t => Some (key <? Token t)
                | None => None
                end) with
  | None => None
  | Some i => if (length tokens <=? i)%nat then Some 0%nat else Some i
  end.

(** ** [getInternal] *)

(** The variables of the resolution loop. *)
Record walkState := mkWalk {
  w_i : nat;
  w_iterations : nat;
  w_n : Z;
  w_distinctHosts : gset string;
  w_ingesters : list IngesterDesc
}.

(** [len(distinctHosts) < n && iterations < len(r.ringDesc.Tokens)] *)
Definition loopCond (r : Ring) (st : walkState) : bool :=
  (Z.of_nat (size (w_distinctHosts st)) <? w_n st)
  && (w_iterations st <? length (Tokens (ringDesc r)))%nat.

(** One pass through the loop body followed by the post statement [i++].
    [None] is the index-out-of-range panic of [Tokens[i]]. *)
Definition loopBody (r : Ring) (op : Operation) (st : walkState) : option walkState :=
  let tokens := Tokens (ringDesc r) in
  let iterations := S (w_iterations st) in
  let i := (w_i st mod length tokens)%nat in
  match tokens !! i with
  | None => None
  | Some token =>
      if decide (Ingester token ∈ w_distinctHosts st) then
        Some (mkWalk (S i) iterations (w_n st) (w_distinctHosts st) (w_ingesters st))
      else
        let distinctHosts := {[Ingester token]} ∪ w_distinctHosts st in
        if isLeaving (State token) then
          let n := w_n st + 1 in
          match op with
          | Write => Some (mkWalk (S i) iterations n distinctHosts (w_ingesters st))
          | Read =>
              Some (mkWalk (S i) iterations n distinctHosts
                      (w_ingesters st ++ [mapIndex (Ingesters (ringDesc r)) (Ingester token)]))
          end
        else
          Some (mkWalk (S i) iterations (w_n st) distinctHosts
                  (w_ingesters st ++ [mapIndex (Ingesters (ringDesc r)) (Ingester token)]))
  end.

(** The [for] loop; [fuel] bounds the number of passes. *)
Fixpoint walkLoop (r : Ring) (op : Operation) (fuel : nat) (st : walkState)
  : option walkState :=
  match fuel with
  | O => Some st
  | S fuel' =>
      if loopCond r st then
        match loopBody r op st with
        | None => None
        | Some st' => walkLoop r op fuel' st'
        end
      else Some st
  end.

(** The state in which the loop of [getInternal] ends; the loop runs at most
    [len(Tokens)] passes, which is the fuel given. *)
Definition walk (r : Ring) (key : Z) (n : Z) (op : Operation) : option walkState :=
  match search r key with
  | None => None
  | Some start =>
      walkLoop r op (length (Tokens (ringDesc r)))
        (mkWalk start 0 n ∅ [])
  end.

(** [func (r *Ring) getInternal(key uint32, n int, op Operation) ([]IngesterDesc, error)].
    [make([]IngesterDesc, 0, n)] panics when [n] is negative.  This
    definition is the function below the capacity limit of the allocator;
    [getInternalAlloc] is the function with that limit. *)
Definition getInternal (r : Ring) (key : Z) (n : Z) (op : Operation)
  : outcome (list IngesterDesc) :=
  if (length (Tokens (ringDesc r)) =? 0)%nat then Returns [] (Some ErrEmptyRing)
  else if n <? 0 then Panics
  else
    match walk r key n op with
    | None => Panics
    | Some st => Returns (w_ingesters st) None
    end.

(** [func (r *Ring) Get(key uint32, n int, op Operation) ([]IngesterDesc, error)] *)
Definition Get (r : Ring) (key : Z) (n : Z) (op : Operation)
  : outcome (list IngesterDesc) :=
  getInternal r key n op.

(** [make([]IngesterDesc, 0, n)]: a panic ("makeslice: cap out of range")
    when [n] is negative or larger than the capacity the allocator accepts
    for the element type.  That capacity, [maxCap], depends on the platform
    and on the size of [IngesterDesc], which is declared outside [ring.go];
    it is a parameter. *)
Definition makeIngesters (maxCap n : Z) : option (list IngesterDesc) :=
  if (n <? 0) || (maxCap <? n) then None else Some [].

(** [getInternal] with the capacity limit of [make]. *)
Definition getInternalAlloc (maxCap : Z) (r : Ring) (key : Z) (n : Z) (op : Operation)
  : outcome (list IngesterDesc) :=
  if (length (Tokens (ringDesc r)) =? 0)%nat then Returns [] (Some ErrEmptyRing)
  else
    match makeIngesters maxCap n with
    | None => Panics
    | Some ingesters =>
        match search r key with
        | None => Panics
        | Some start =>
            match walkLoop r op (length (Tokens (ringDesc r)))
                    (mkWalk start 0 n ∅ ingesters) with
            | None => Panics
            | Some st => Returns (w_ingesters st) None
            end
        end
    end.

(** [Get] with the capacity limit of [make]. *)
Definition GetAlloc (maxCap : Z) (r : Ring) (key : Z) (n : Z) (op : Operation)
  : outcome (list IngesterDesc) :=
  getInternalAlloc maxCap r key n op.

(** The [range keys] loop of [BatchGet]: [result] holds the entries filled so
    far followed by the untouched [nil] entries of the remaining keys. *)
Fixpoint batchLoop (r : Ring) (n : Z) (op : Operation) (keys : list Z)
    (i : nat) (result : list (list IngesterDesc))
  : outcome (list (list IngesterDesc)) :=
  match keys with
  | [] => Returns result None
  | key :: keys' =>
      match getInternal r key n op with
      | Panics => Panics
      | Returns _ (Some err) => Returns [] (Some err)
      | Returns ingesters None =>
          batchLoop r n op keys' (S i) (<[i := ingesters]> result)
      end
  end.

(** [func (r *Ring) BatchGet(keys []uint32, n int, op Operation) ([][]IngesterDesc, error)] *)
Definition BatchGet (r : Ring) (keys : list Z) (n : Z) (op : Operation)
  : outcome (list (list IngesterDesc)) :=
  batchLoop r n op keys 0%nat (replicate (length keys) []).

(** ** The watch callback of [loop] *)

(** The closure passed to [WatchKey]: [value] is [nil] or the decoded
    [*Desc]; the result is the engine afterwards and the "keep watching"
    flag. *)
Definition watchCallback (r : Ring) (value : option Desc) : Ring * bool :=
  match value with
  | None => (r, true)
  | Some ringDesc' => (mkRing ringDesc' (heartbeatTimeout r), true)
  end.

(** [loop] against a watcher that delivers [values] in turn and stops
    delivering once the callback answers [false]. *)
Fixpoint loop (r : Ring) (values : list (option Desc)) : Ring :=
  match values with
  | [] => r
  | value :: values' =>
      let '(r', continue) := watchCallback r value in
      if continue then loop r' values' else r'
  end.

(** ** Ownership in [Collect] *)

Definition MaxUint32 : Z := 4294967295.

(** Arithmetic on [uint32] wraps modulo 2^32. *)
Definition wrap32 (x : Z) : Z := x mod 2 ^ 32.

(** The [diff] of the token at index [i]; [None] is an index-out-of-range
    panic. *)
Definition tokenDiff (tokens : list TokenDesc) (i : nat) (token : TokenDesc) : option Z :=
  if (i + 1 =? length tokens)%nat then
    match tokens !! 0%nat with
    | Some first => Some (wrap32 (wrap32 (MaxUint32 - Token token) + Token first))
    | None => None
    end
  else
    match tokens !! (i + 1)%nat with
    | Some next => Some (wrap32 (Token next - Token token))
    | None => None
    end.

(** The first loop of [Collect], over the tokens from index [i] on:
    [owned[token.Ingester] = owned[token.Ingester] + diff]. *)
Fixpoint ownedLoop (tokens : list TokenDesc) (rest : list TokenDesc) (i : nat)
    (owned : gmap string Z) : option (gmap string Z) :=
  match rest with
  | [] => Some owned
  | token :: rest' =>
      match tokenDiff tokens i token with
      | None => None
      | Some diff =>
          ownedLoop tokens rest' (S i)
            (<[Ingester token := wrap32 (default 0 (owned !! Ingester token) + diff)]> owned)
      end
  end.

Definition owned (r : Ring) : option (gmap string Z) :=
  ownedLoop (Tokens (ringDesc r)) (Tokens (ringDesc r)) 0%nat ∅.

(** The ownership fraction of one node as an exact quotient,
    [totalOwned / (2^32 - 1)]: the number that the exported gauge,
    [ownershipGauge] below, approximates. *)
Definition ownershipFraction (totalOwned : Z) : Q :=
  inject_Z totalOwned / inject_Z MaxUint32.

(** [float64(x)] for a [uint32] value [x]; the conversion is exact. *)
Definition float64 (x : Z) : PrimFloat.float :=
  PrimFloat.of_uint63 (Uint63.of_Z x).

(** The gauge value of one node as [Collect] computes it:
    [float64(totalOwned)/float64(math.MaxUint32)]. *)
Definition ownershipGauge (totalOwned : Z) : PrimFloat.float :=
  PrimFloat.div (float64 totalOwned) (float64 MaxUint32).

(** Sum of the values of the [owned] map. *)
Definition sumOwned (m : gmap string Z) : Z :=
  map_fold (λ _ v acc, v + acc) 0 m.

(** The exact ownership fraction of every node that the second loop of
    [Collect] emits a gauge for, labelled with the node identifier.  Go
    ranges over a map in an unspecified order; the list is in the order of
    [map_to_list]. *)
Definition ownershipMetrics (owned : gmap string Z) : list (string * Q) :=
  (λ '(id, totalOwned), (id, ownershipFraction totalOwned)) <$> map_to_list owned.

(** The second loop of [Collect]: one float64 ownership gauge per entry of
    [owned], in the order of [map_to_list]. *)
Definition ownershipGauges (owned : gmap string Z) : list (string * PrimFloat.float) :=
  (λ '(id, totalOwned), (id, ownershipGauge totalOwned)) <$> map_to_list owned.

(** The rational number that a finite float64 is; [None] for an infinity or
    a NaN. *)
Definition float64Value (x : PrimFloat.float) : option Q :=
  match FloatOps.Prim2SF x with
  | SpecFloat.S754_zero _ => Some 0%Q
  | SpecFloat.S754_finite sign mantissa exponent =>
      let magnitude :=
        if 0 <=? exponent
        then (inject_Z (Z.pos mantissa) * inject_Z (2 ^ exponent))%Q
        else (inject_Z (Z.pos mantissa) / inject_Z (2 ^ (- exponent)))%Q in
      Some (if sign then (- magnitude)%Q else magnitude)
  | _ => None
  end.

(** The exact sum of a list of float64 values. *)
Fixpoint exactSum (l : list PrimFloat.float) : option Q :=
  match l with
  | [] => Some 0%Q
  | x :: l' =>
      match float64Value x, exactSum l' with
      | Some q, Some acc => Some (q + acc)%Q
      | _, _ => None
      end
  end.

(** The sum of a list of float64 values computed in float64, left to right. *)
Definition floatSum (l : list PrimFloat.float) : PrimFloat.float :=
  foldl PrimFloat.add (float64 0) l.

Definition sumQ (l : list Q) : Q := foldr Qplus 0%Q l.

(** The part of the hash space covered by the segments of the tokens before
    index [i]: the distance from the first token to token [i], and the whole
    space once every token is counted. *)
Definition ownedBefore (tokens : list TokenDesc) (i : nat) : Z :=
  match tokens !! i, tokens !! 0%nat with
  | Some t, Some first => Token t - Token first
  | _, _ => MaxUint32
  end.

(** ** Order of the token list *)

(** Ascending order of the token hashes, which [sort.Search] relies on. *)
Definition tokensSorted (tokens : list TokenDesc) : Prop :=
  Sorted (λ a b, Token a ≤ Token b) tokens.

(** The descriptor invariant: strictly ascending, no duplicate hash. *)
Definition tokensStrictlySorted (tokens : list TokenDesc) : Prop :=
  Sorted (λ a b, Token a < Token b) tokens.

(** Every hash is a [uint32]. *)
Definition tokensUint32 (tokens : list TokenDesc) : Prop :=
  Forall (λ t, 0 ≤ Token t ≤ MaxUint32) tokens.

(** ** The walk seen from the token list *)

(** The node identifiers that own a token. *)
Definition tokenHosts (tokens : list TokenDesc) : gset string :=
  list_to_set (Ingester <$> tokens).

(** The first [k] tokens the loop passes over when it starts at index
    [start]: pass [j] reads [Tokens[(start + j) % len(Tokens)]]. *)
Definition visitedTokens (tokens : list TokenDesc) (start k : nat) : list TokenDesc :=
  omap (λ j, tokens !! ((start + j) mod length tokens)%nat) (seq 0 k).

(** Number of [Leaving] tokens in a list. *)
Fixpoint countLeaving (ts : list TokenDesc) : Z :=
  match ts with
  | [] => 0
  | t :: ts' => (if isLeaving (State t) then 1 else 0) + countLeaving ts'
  end.

(** Number of [Leaving] tokens in a list whose node is neither in [seen] nor
    the owner of an earlier token of the list. *)
Fixpoint leavingFirstSeen (seen : gset string) (ts : list TokenDesc) : Z :=
  match ts with
  | [] => 0
  | t :: ts' =>
      if decide (Ingester t ∈ seen) then leavingFirstSeen seen ts'
      else (if isLeaving (State t) then 1 else 0)
           + leavingFirstSeen ({[Ingester t]} ∪ seen) ts'
  end.

(** What holds of the loop variables at the loop head, for a walk of ring [r]
    that started at index [start] with target [n0]. *)
Record walkInv (r : Ring) (op : Operation) (start : nat) (n0 : Z)
    (st : walkState) : Prop := mkWalkInv {
  inv_iterations :
    (w_iterations st ≤ length (Tokens (ringDesc r)))%nat;
  inv_index :
    (w_i st mod length (Tokens (ringDesc r)) =
     (start + w_iterations st) mod length (Tokens (ringDesc r)))%nat;
  inv_hosts :
    w_distinctHosts st =
    tokenHosts (visitedTokens (Tokens (ringDesc r)) start (w_iterations st));
  inv_n :
    w_n st = n0 + leavingFirstSeen ∅
                    (visitedTokens (Tokens (ringDesc r)) start (w_iterations st));
  inv_size :
    0 ≤ n0 → Z.of_nat (size (w_distinctHosts st)) ≤ w_n st;
  inv_ingesters :
    ∃ hosts : list string,
      w_ingesters st = mapIndex (Ingesters (ringDesc r)) <$> hosts ∧
      NoDup hosts ∧
      (∀ h, h ∈ hosts → h ∈ w_distinctHosts st) ∧
      (op = Read → length hosts = size (w_distinctHosts st))
}.

(** ** Concrete rings used in the examples *)

Definition nodeA : IngesterDesc := mkIngester "A" "a:9095" 100.
Definition nodeB : IngesterDesc := mkIngester "B" "b:9095" 100.
Definition nodeC : IngesterDesc := mkIngester "C" "c:9095" 100.

Definition nodesABC : gmap string IngesterDesc :=
  <["A" := nodeA]> (<["B" := nodeB]> (<["C" := nodeC]> ∅)).

(** The tokens of the scenario in which node [B] is leaving. *)
Definition tokensLeavingB : list TokenDesc :=
  [mkToken 10 "A" Active; mkToken 20 "B" Leaving; mkToken 30 "C" Active].

Definition ringLeavingB : Ring := mkRing (mkDesc nodesABC tokensLeavingB) 60.

(** The ring of the scenarios before node [B] starts leaving. *)
Definition ringABC : Ring :=
  mkRing (mkDesc nodesABC
            [mkToken 10 "A" Active; mkToken 20 "B" Active; mkToken 30 "C" Active])
         60.

(** One leaving node [X] that owns two tokens, followed by two active nodes. *)
Definition ringTwoLeaving : Ring :=
  mkRing (mkDesc (<["X" := mkIngester "X" "x:9095" 100]>
                    (<["Y" := mkIngester "Y" "y:9095" 100]>
                       (<["Z" := mkIngester "Z" "z:9095" 100]> ∅)))
            [mkToken 10 "X" Leaving; mkToken 20 "X" Leaving;
             mkToken 30 "Y" Active; mkToken 40 "Z" Active])
         60.


(** The engine as constructed: no tokens, no nodes. *)
Definition ringEmpty : Ring := mkRing (mkDesc ∅ []) 60.

(** ** Two statements of the specification, in its own words *)

(** "Every Leaving token encountered increases the target n by one": the
    target at the end of the walk is the initial one plus the number of
    [Leaving] tokens the walk passed over. *)
Definition inflatesPerLeavingToken (r : Ring) (key n : Z) (op : Operation) : Prop :=
  ∀ start st,
    search r key = Some start →
    walk r key n op = Some st →
    w_n st = n + countLeaving
                   (visitedTokens (Tokens (ringDesc r)) start (w_iterations st)).


(** The engine [r] with another node map and the same tokens. *)
Definition withIngesters (r : Ring) (m : gmap string IngesterDesc) : Ring :=
  mkRing (mkDesc m (Tokens (ringDesc r))) (heartbeatTimeout r).

(** [st'] has the control variables of [st] and holds the entries that the
    node map [m] gives for [hosts]. *)
Definition hostsView (m : gmap string IngesterDesc) (hosts : list string)
    (st st' : walkState) : Prop :=
  w_i st' = w_i st ∧
  w_iterations st' = w_iterations st ∧
  w_n st' = w_n st ∧
  w_distinctHosts st' = w_distinctHosts st ∧
  w_ingesters st' = mapIndex m <$> hosts.

(** ** The rest of [ring.go] *)

(** [type uint32s []uint32] and its [sort.Interface] methods [Len], [Less]
    and [Swap]; [None] is an index-out-of-range panic.  [Swap] is the
    parallel assignment [x[i], x[j] = x[j], x[i]]: both operands are read
    before either element is written. *)
Definition uint32s_Len (x : list Z) : nat := length x.

Definition uint32s_Less (x : list Z) (i j : nat) : option bool :=
  match x !! i, x !! j with
  | Some xi, Some xj => Some (xi <? xj)
  | _, _ => None
  end.

Definition uint32s_Swap (x : list Z) (i j : nat) : option (list Z) :=
  match x !! j, x !! i with
  | Some xj, Some xi => Some (<[j := xi]> (<[i := xj]> x))
  | _, _ => None
  end.

(** [func New(client, heartbeatTimeout) *Ring]: the engine starts with the
    zero [Desc], no nodes and no tokens; the goroutine that [New] starts is
    the [loop] above. *)
Definition New (timeout : Z) : Ring := mkRing (mkDesc ∅ []) timeout.

(** [time.Duration] is a signed 64-bit count of nanoseconds, and
    [Time.Sub] saturates at its bounds.  Instants are nanosecond counts. *)
Definition minDuration : Z := - 2 ^ 63.
Definition maxDuration : Z := 2 ^ 63 - 1.

Definition timeSub (t u : Z) : Z :=
  Z.max minDuration (Z.min maxDuration (t - u)).

(** [time.Now().Sub(ingester.Timestamp) > r.heartbeatTimeout], with [now]
    the reading of the clock. *)
Definition heartbeatExpired (r : Ring) (now : Z) (ingester : IngesterDesc) : bool :=
  heartbeatTimeout r <? timeSub now (Timestamp ingester).

(** The loop of [GetAll] over the entries of the node map; the clock is read
    once per entry, [clock k] being the reading of pass [k]. *)
Fixpoint getAllLoop (r : Ring) (clock : nat → Z) (k : nat)
    (entries : list (string * IngesterDesc)) (ingesters : list IngesterDesc)
  : list IngesterDesc :=
  match entries with
  | [] => ingesters
  | (_, ingester) :: entries' =>
      if heartbeatExpired r (clock k) ingester then
        getAllLoop r clock (S k) entries' ingesters
      else
        getAllLoop r clock (S k) entries' (ingesters ++ [ingester])
  end.


(** [func (r *Ring) GetAll() []IngesterDesc], run in one of the orders in
    which Go may range over the node map, that of [map_to_list]; the loop
    for any order is [getAllLoop]. *)
Definition GetAll (r : Ring) (clock : nat → Z) : list IngesterDesc :=
  getAllLoop r clock 0 (map_to_list (Ingesters (ringDesc r))) [].

(** The third loop of [Collect]: the [healthy] and [unhealthy] counters,
    over the entries of the node map in the order the [range] visits them. *)
Fixpoint healthLoop (r : Ring) (clock : nat → Z) (k : nat)
    (entries : list (string * IngesterDesc)) (healthy unhealthy : Z) : Z * Z :=
  match entries with
  | [] => (healthy, unhealthy)
  | (_, ingester) :: entries' =>
      if heartbeatExpired r (clock k) ingester then
        healthLoop r clock (S k) entries' healthy (unhealthy + 1)
      else
        healthLoop r clock (S k) entries' (healthy + 1) unhealthy
  end.

(** The value of the [cortex_ring_tokens] gauge of [Collect]. *)
Definition numTokens (r : Ring) : Z := Z.of_nat (length (Tokens (ringDesc r))).

(** ** The hosts a walk appends *)

(** The host whose entry one pass of the loop appends, if any. *)
Definition passHosts (r : Ring) (op : Operation) (st : walkState) : list string :=
  match Tokens (ringDesc r) !! (w_i st mod length (Tokens (ringDesc r)))%nat with
  | None => []
  | Some token =>
      if decide (Ingester token ∈ w_distinctHosts st) then []
      else if isLeaving (State token) then
        match op with Write => [] | Read => [Ingester token] end
      else [Ingester token]
  end.

(** The hosts whose entries the loop appends from state [st] on. *)
Fixpoint walkHosts (r : Ring) (op : Operation) (fuel : nat) (st : walkState)
  : list string :=
  match fuel with
  | O => []
  | S fuel' =>
      if loopCond r st then
        match loopBody r op st with
        | None => []
        | Some st' => passHosts r op st ++ walkHosts r op fuel' st'
        end
      else []
  end.

(** The hosts whose entries [getInternal] returns, in order. *)
Definition resolvedHosts (r : Ring) (key n : Z) (op : Operation) : list string :=
  match search r key with
  | None => []
  | Some start =>
      walkHosts r op (length (Tokens (ringDesc r))) (mkWalk start 0 n ∅ [])
  end.

(** The token owners none of whose tokens is [Leaving]. *)
Definition activeHosts (tokens : list TokenDesc) : gset string :=
  tokenHosts tokens
  ∖ tokenHosts (filter (λ t, isLeaving (State t) = true) tokens).

(** What holds of the list [hosts] of the hosts appended so far, at the loop
    head of a walk that started at index [start]. *)
Record hostsInv (r : Ring) (op : Operation) (start : nat)
    (st : walkState) (hosts : list string) : Prop := mkHostsInv {
  hi_nodup : NoDup hosts;
  hi_seen : ∀ h, h ∈ hosts → h ∈ w_distinctHosts st;
  hi_count :
    Z.of_nat (length hosts)
    + match op with
      | Write => leavingFirstSeen ∅
                   (visitedTokens (Tokens (ringDesc r)) start (w_iterations st))
      | Read => 0
      end
    = Z.of_nat (size (w_distinctHosts st));
  hi_write :
    op = Write →
    ∀ h, h ∈ hosts →
         ∃ t, t ∈ visitedTokens (Tokens (ringDesc r)) start (w_iterations st) ∧
              Ingester t = h ∧ isLeaving (State t) = false;
  hi_skipped :
    ∀ h, h ∈ w_distinctHosts st → h ∉ hosts →
         ∃ t, t ∈ visitedTokens (Tokens (ringDesc r)) start (w_iterations st) ∧
              Ingester t = h ∧ isLeaving (State t) = true
}.





(** A strictly sorted ring of three nodes whose shares of the hash space
    are 1134717409, 695114348 and 2465135538. *)
Definition ringThreeShares : Ring :=
  mkRing (mkDesc nodesABC
            [mkToken 0 "A" Active; mkToken 1134717409 "B" Active;
             mkToken 1829831757 "C" Active])
         60.

(** "The ownership fractions computed for the metrics export sum to exactly
    1", for the float64 values that [Collect] exports. *)
Definition gaugesSumToOne (r : Ring) : Prop :=
  ∃ m total,
    owned r = Some m ∧
    exactSum (snd <$> ownershipGauges m) = Some total ∧
    (total == 1)%Q.


(** ** Properties *)

(** *** Binary search *)

(** The interval [i .. j) shrinks with every pass, so [j - i] passes of fuel
    are enough: more fuel does not change the result. *)
Lemma sortSearchLoop_fuel f fuel1 : ∀ fuel2 i j,
  (j - i ≤ fuel1)%nat → (j - i ≤ fuel2)%nat →
  sortSearchLoop fuel1 f i j = sortSearchLoop fuel2 f i j.
Proof.
  induction fuel1 as [|fuel1 IH]; intros fuel2 i j H1 H2.
  - destruct fuel2 as [|fuel2]; cbn [sortSearchLoop]; [done|].
    destruct (Nat.ltb_spec i j); [lia|done].
  - destruct fuel2 as [|fuel2]; cbn [sortSearchLoop];
      destruct (Nat.ltb_spec i j) as [Hlt|Hge]; try (done || lia).
    set (h := ((i + j) / 2)%nat).
    assert (Hh : (i ≤ h)%nat ∧ (h < j)%nat).
    { subst h. split.
      - apply Nat.div_le_lower_bound; lia.
      - apply Nat.Div0.div_lt_upper_bound; lia. }
    clearbody h. destruct (f h) as [[]|]; [| |done]; apply IH; lia.
Qed.

Section sort_search.
Variables (n : nat) (p : nat → bool) (f : nat → option bool).
Hypothesis f_total : ∀ h, (h < n)%nat → f h = Some (p h).
Hypothesis p_mono : ∀ a b, (a ≤ b)%nat → (b < n)%nat → p a = true → p b = true.

(** The search calls [f] within [0 .. n) only, whatever [f] answers. *)
Lemma sortSearchLoop_total fuel : ∀ i j,
  (i ≤ j)%nat → (j ≤ n)%nat →
  ∃ s, sortSearchLoop fuel f i j = Some s ∧ (i ≤ s)%nat ∧ (s ≤ j)%nat.
Proof.
  induction fuel as [|fuel IH]; intros i j Hij Hjn; cbn [sortSearchLoop].
  - exists i. auto with lia.
  - destruct (Nat.ltb_spec i j) as [Hlt|Hge]; [|exists i; auto with lia].
    set (h := ((i + j) / 2)%nat).
    assert (Hh : (i ≤ h)%nat ∧ (h < j)%nat).
    { subst h. split.
      - apply Nat.div_le_lower_bound; lia.
      - apply Nat.Div0.div_lt_upper_bound; lia. }
    clearbody h. destruct Hh as [Hih Hhj].
    rewrite f_total by lia.
    destruct (p h).
    + destruct (IH i h) as (s & Hs & H1 & H2); try lia.
      exists s. auto with lia.
    + destruct (IH (h + 1)%nat j) as (s & Hs & H1 & H2); try lia.
      exists s. auto with lia.
Qed.

Lemma sortSearchLoop_spec fuel : ∀ i j,
  (i ≤ j)%nat → (j ≤ n)%nat → (j - i ≤ fuel)%nat →
  (∀ k, (k < i)%nat → p k = false) →
  (∀ k, (j ≤ k)%nat → (k < n)%nat → p k = true) →
  ∃ s, sortSearchLoop fuel f i j = Some s ∧ (i ≤ s)%nat ∧ (s ≤ j)%nat ∧
       (∀ k, (k < s)%nat → p k = false) ∧
       (∀ k, (s ≤ k)%nat → (k < n)%nat → p k = true).
Proof.
  induction fuel as [|fuel IH]; intros i j Hij Hjn Hfuel Hlo Hhi;
    cbn [sortSearchLoop].
  - exists i. assert (i = j) by lia. subst. auto with lia.
  - destruct (Nat.ltb_spec i j) as [Hlt|Hge].
    + set (h := ((i + j) / 2)%nat).
      assert (Hh : (i ≤ h)%nat ∧ (h < j)%nat).
      { subst h. split.
        - apply Nat.div_le_lower_bound; lia.
        - apply Nat.Div0.div_lt_upper_bound; lia. }
      clearbody h. destruct Hh as [Hih Hhj].
      rewrite f_total by lia.
      destruct (p h) eqn:Hph.
      * destruct (IH i h) as (s & Hs & H1 & H2 & H3 & H4); try lia; auto.
        { intros k Hk1 Hk2. apply (p_mono h k); auto with lia. }
        exists s. repeat split; auto with lia.
      * destruct (IH (h + 1)%nat j) as (s & Hs & H1 & H2 & H3 & H4);
          try lia; auto.
        { intros k Hk. destruct (p k) eqn:Hpk; auto.
          rewrite (p_mono k h) in Hph; [discriminate|lia|lia|done]. }
        exists s. repeat split; auto with lia.
    + exists i. assert (i = j) by lia. subst. auto with lia.
Qed.

Lemma sortSearch_spec :
  ∃ s, sortSearch n f = Some s ∧ (s ≤ n)%nat ∧
       (∀ k, (k < s)%nat → p k = false) ∧
       (∀ k, (s ≤ k)%nat → (k < n)%nat → p k = true).
Proof.
  destruct (sortSearchLoop_spec n 0%nat n) as (s & Hs & _ & Hsn & Hlo & Hhi);
    try lia.
  exists s. auto.
Qed.
End sort_search.

(** *** Sorted token lists *)

Lemma StronglySorted_lookup_lt {A} (R : relation A) (l : list A) :
  StronglySorted R l →
  ∀ i j x y, (i < j)%nat → l !! i = Some x → l !! j = Some y → R x y.
Proof.
  induction 1 as [|a l Hl IH Hall]; intros i j x y Hij Hi Hj.
  - by rewrite lookup_nil in Hi.
  - destruct j as [|j]; [lia|]. destruct i as [|i]; simplify_eq/=.
    + rewrite Forall_forall in Hall. apply Hall.
      eapply list_elem_of_lookup_2; eauto.
    + eapply IH; [|eauto..]. lia.
Qed.

Lemma tokensSorted_lookup tokens i j a b :
  tokensSorted tokens → (i ≤ j)%nat →
  tokens !! i = Some a → tokens !! j = Some b → Token a ≤ Token b.
Proof.
  intros Hs Hij Ha Hb.
  destruct (decide (i = j)) as [->|Hne]; [simplify_eq; lia|].
  apply Sorted_StronglySorted in Hs; [|intros x y z Hx Hy; lia].
  eapply (StronglySorted_lookup_lt _ _ Hs i j); eauto. lia.
Qed.

Lemma tokensStrictlySorted_sorted tokens :
  tokensStrictlySorted tokens → tokensSorted tokens.
Proof.
  unfold tokensStrictlySorted, tokensSorted.
  induction 1 as [|a l Hl IH Hhd]; constructor; auto.
  destruct Hhd; constructor; lia.
Qed.

(** *** [search] *)

Lemma search_spec r key :
  tokensSorted (Tokens (ringDesc r)) →
  ∃ s, sortSearch (length (Tokens (ringDesc r)))
         (λ x, match Tokens (ringDesc r) !! x with
               | Some t => Some (key <? Token t)
               | None => None
               end) = Some s ∧
       (s ≤ length (Tokens (ringDesc r)))%nat ∧
       (∀ k t, (k < s)%nat → Tokens (ringDesc r) !! k = Some t → Token t ≤ key) ∧
       (∀ k t, (s ≤ k)%nat → Tokens (ringDesc r) !! k = Some t → key < Token t).
Proof.
  intros Hs. set (tokens := Tokens (ringDesc r)) in *.
  set (p := λ x : nat, match tokens !! x with
                       | Some t => key <? Token t
                       | None => false
                       end).
  destruct (sortSearch_spec (length tokens) p
              (λ x, match tokens !! x with
                    | Some t => Some (key <? Token t)
                    | None => None
                    end)) as (s & Hss & Hle & Hlo & Hhi).
  - intros h Hh. unfold p.
    destruct (lookup_lt_is_Some_2 tokens h Hh) as [t ->]. done.
  - intros a b Hab Hb. unfold p.
    destruct (lookup_lt_is_Some_2 tokens b Hb) as [tb Htb].
    destruct (lookup_lt_is_Some_2 tokens a ltac:(lia)) as [ta Hta].
    rewrite Hta, Htb. intros Ha%Z.ltb_lt. apply Z.ltb_lt.
    pose proof (tokensSorted_lookup tokens a b ta tb Hs Hab Hta Htb). lia.
  - exists s. repeat split; auto.
    + intros k t Hk Ht. specialize (Hlo k Hk). unfold p in Hlo.
      rewrite Ht in Hlo. apply Z.ltb_ge in Hlo. done.
    + intros k t Hk Ht. specialize (Hhi k Hk (lookup_lt_Some _ _ _ Ht)).
      unfold p in Hhi. rewrite Ht in Hhi. by apply Z.ltb_lt in Hhi.
Qed.

(** [search] never panics and stays within the token list. *)
Lemma search_in_range r key :
  Tokens (ringDesc r) ≠ [] →
  ∃ s, search r key = Some s ∧ (s < length (Tokens (ringDesc r)))%nat.
Proof.
  intros Hne. unfold search. set (tokens := Tokens (ringDesc r)) in *.
  assert (0 < length tokens)%nat as Hlen by (destruct tokens; simpl; [done|lia]).
  destruct (sortSearchLoop_total (length tokens)
              (λ x, match tokens !! x with
                    | Some t => key <? Token t
                    | None => false
                    end)
              (λ x, match tokens !! x with
                    | Some t => Some (key <? Token t)
                    | None => None
                    end)) with (fuel := length tokens) (i := 0%nat)
              (j := length tokens) as (s & Hs & _ & Hle); try lia.
  { intros h Hh. destruct (lookup_lt_is_Some_2 tokens h Hh) as [t ->]. done. }
  unfold sortSearch. rewrite Hs.
  destruct (Nat.leb_spec (length tokens) s); eauto with lia.
Qed.

(** C3: on a non-empty token list sorted by hash, [search] returns the index
    of the first token whose hash is strictly greater than the key, and index
    0 when no token hash is greater than the key. *)
Theorem search_first_greater r key :
  Tokens (ringDesc r) ≠ [] →
  tokensSorted (Tokens (ringDesc r)) →
  ∃ s, search r key = Some s ∧
       ((∃ t, t ∈ Tokens (ringDesc r) ∧ key < Token t) →
          ∃ t, Tokens (ringDesc r) !! s = Some t ∧ key < Token t ∧
               ∀ j tj, (j < s)%nat → Tokens (ringDesc r) !! j = Some tj →
                       Token tj ≤ key) ∧
       ((∀ t, t ∈ Tokens (ringDesc r) → Token t ≤ key) → s = 0%nat).
Proof.
  intros Hne Hsorted.
  destruct (search_spec r key Hsorted) as (s & Hs & Hle & Hlo & Hhi).
  unfold search. rewrite Hs. set (tokens := Tokens (ringDesc r)) in *.
  destruct (Nat.leb_spec (length tokens) s) as [Hout|Hin].
  - exists 0%nat. split; [done|]. split; [|done].
    intros (t & [k Hk]%list_elem_of_lookup_1 & Hgt).
    pose proof (lookup_lt_Some _ _ _ Hk).
    specialize (Hlo k t ltac:(lia) Hk). lia.
  - exists s. split; [done|]. split.
    + intros _. destruct (lookup_lt_is_Some_2 tokens s Hin) as [t Ht].
      exists t. split; [done|]. split; [by apply (Hhi s t)|].
      intros j tj Hj Htj. by apply (Hlo j tj).
    + intros Hall. destruct (lookup_lt_is_Some_2 tokens s Hin) as [t Ht].
      specialize (Hhi s t ltac:(lia) Ht).
      specialize (Hall t (list_elem_of_lookup_2 _ _ _ Ht)). lia.
Qed.

(** [search_first_greater] on the ring with node [B] leaving, key 15. *)
Lemma search_first_greater_witness :
  ∃ s, search ringLeavingB 15 = Some s ∧
       ((∃ t, t ∈ Tokens (ringDesc ringLeavingB) ∧ 15 < Token t) →
          ∃ t, Tokens (ringDesc ringLeavingB) !! s = Some t ∧ 15 < Token t ∧
               ∀ j tj, (j < s)%nat → Tokens (ringDesc ringLeavingB) !! j = Some tj →
                       Token tj ≤ 15) ∧
       ((∀ t, t ∈ Tokens (ringDesc ringLeavingB) → Token t ≤ 15) → s = 0%nat).
Proof.
  apply (search_first_greater ringLeavingB 15).
  - simpl. discriminate.
  - unfold tokensSorted. simpl. repeat constructor; simpl; lia.
Defined.

(** *** The tokens a walk passes over *)

Lemma visitedTokens_S tokens start k t :
  tokens !! ((start + k) mod length tokens)%nat = Some t →
  visitedTokens tokens start (S k) = visitedTokens tokens start k ++ [t].
Proof.
  intros Ht. unfold visitedTokens.
  rewrite seq_S, omap_app. simpl. by rewrite Ht.
Qed.

Lemma visitedTokens_subseteq tokens start k :
  tokenHosts (visitedTokens tokens start k) ⊆ tokenHosts tokens.
Proof.
  unfold tokenHosts, visitedTokens. intros h.
  rewrite !elem_of_list_to_set, !list_elem_of_fmap.
  intros (t & -> & Ht). exists t. split; [done|].
  apply list_elem_of_omap in Ht as (j & _ & Hj).
  by eapply list_elem_of_lookup_2.
Qed.

Lemma tokenHosts_snoc ts t :
  tokenHosts (ts ++ [t]) = tokenHosts ts ∪ {[Ingester t]}.
Proof. unfold tokenHosts. rewrite fmap_app, list_to_set_app_L. set_solver. Qed.

Lemma elem_of_seen_cons (x a : string) (seen X : gset string) :
  (a ∈ seen → (x ∈ seen ∪ X ↔ x ∈ seen ∪ ({[a]} ∪ X))) ∧
  (x ∈ {[a]} ∪ seen ∪ X ↔ x ∈ seen ∪ ({[a]} ∪ X)).
Proof. set_solver. Qed.

Lemma leavingFirstSeen_snoc ts : ∀ seen t,
  leavingFirstSeen seen (ts ++ [t]) =
  leavingFirstSeen seen ts +
  (if decide (Ingester t ∈ seen ∪ tokenHosts ts) then 0
   else if isLeaving (State t) then 1 else 0).
Proof.
  induction ts as [|a ts IH]; intros seen t; simpl.
  - unfold tokenHosts; simpl.
    destruct (decide (Ingester t ∈ seen)), (decide (Ingester t ∈ seen ∪ ∅));
      try lia; exfalso; set_solver.
  - assert (Hcons : tokenHosts (a :: ts) = {[Ingester a]} ∪ tokenHosts ts)
      by (unfold tokenHosts; set_solver).
    rewrite Hcons. clear Hcons.
    destruct (elem_of_seen_cons (Ingester t) (Ingester a) seen (tokenHosts ts))
      as [Hin Hout].
    destruct (decide (Ingester a ∈ seen)) as [Ha|Ha]; rewrite IH; clear IH.
    + specialize (Hin Ha).
      destruct (decide (Ingester t ∈ seen ∪ tokenHosts ts)),
               (decide (Ingester t ∈ seen ∪ ({[Ingester a]} ∪ tokenHosts ts)));
        try lia; tauto.
    + destruct (decide (Ingester t ∈ {[Ingester a]} ∪ seen ∪ tokenHosts ts)),
               (decide (Ingester t ∈ seen ∪ ({[Ingester a]} ∪ tokenHosts ts)));
        try lia; tauto.
Qed.

Lemma countLeaving_snoc ts t :
  countLeaving (ts ++ [t]) = countLeaving ts + (if isLeaving (State t) then 1 else 0).
Proof.
  induction ts as [|a ts IH]; simpl; [|rewrite IH]; lia.
Qed.

Lemma leavingFirstSeen_bounds ts : ∀ seen,
  0 ≤ leavingFirstSeen seen ts ≤ countLeaving ts.
Proof.
  induction ts as [|a ts IH]; intros seen; simpl; [lia|].
  destruct (decide (Ingester a ∈ seen)).
  - specialize (IH seen). destruct (isLeaving (State a)); lia.
  - specialize (IH ({[Ingester a]} ∪ seen)).
    destruct (isLeaving (State a)); lia.
Qed.

(** *** The resolution loop *)

Lemma loopBody_total r op st :
  Tokens (ringDesc r) ≠ [] → is_Some (loopBody r op st).
Proof.
  intros Hne. unfold loopBody.
  destruct (lookup_lt_is_Some_2 (Tokens (ringDesc r))
              (w_i st mod length (Tokens (ringDesc r)))%nat) as [token ->].
  { apply Nat.mod_upper_bound. destruct (Tokens (ringDesc r)); simpl; [done|lia]. }
  destruct (decide _); [eauto|].
  destruct (isLeaving _); [destruct op|]; eauto.
Qed.

(** Project the fields of an explicit loop state, and nothing else. *)
Ltac walk_simpl :=
  cbn [w_i w_iterations w_n w_distinctHosts w_ingesters] in *.

Lemma walkInv_init r op start n0 :
  walkInv r op start n0 (mkWalk start 0 n0 ∅ []).
Proof.
  constructor; walk_simpl.
  - lia.
  - by rewrite Nat.add_0_r.
  - done.
  - simpl. lia.
  - intros Hn0. rewrite size_empty. lia.
  - exists []. split; [done|]. split; [apply NoDup_nil_2|].
    split; [set_solver|]. by rewrite size_empty.
Qed.

Lemma index_step (i start it len : nat) :
  (i mod len = (start + it) mod len)%nat →
  (S (i mod len) mod len = (start + S it) mod len)%nat.
Proof.
  intros ->. replace (start + S it)%nat with ((start + it) + 1)%nat by lia.
  replace (S ((start + it) mod len)) with ((start + it) mod len + 1)%nat by lia.
  by rewrite Nat.Div0.add_mod_idemp_l.
Qed.

Lemma size_add_host (h : string) (dh : gset string) :
  h ∉ dh → size ({[h]} ∪ dh) = S (size dh).
Proof. intros Hh. rewrite size_union by set_solver. by rewrite size_singleton. Qed.

Lemma NoDup_snoc_host (hosts : list string) (h : string) (dh : gset string) :
  NoDup hosts → (∀ x, x ∈ hosts → x ∈ dh) → h ∉ dh → NoDup (hosts ++ [h]).
Proof.
  intros Hnd Hsub Hh. apply NoDup_app. split; [done|]. split.
  - intros x Hx ->%list_elem_of_singleton. by apply Hh, Hsub.
  - apply NoDup_singleton.
Qed.

Lemma walkInv_step r op start n0 st st' :
  walkInv r op start n0 st →
  loopCond r st = true →
  loopBody r op st = Some st' →
  walkInv r op start n0 st'.
Proof.
  intros [Hit Hidx Hdh Hn Hsz (hosts & Hing & Hnd & Hsub & Hlen)] Hcond Hbody.
  unfold loopCond in Hcond.
  apply andb_true_iff in Hcond as [Hlt%Z.ltb_lt Hit'%Nat.ltb_lt].
  unfold loopBody in Hbody.
  destruct (Tokens (ringDesc r) !! (w_i st mod length (Tokens (ringDesc r)))%nat)
    as [token|] eqn:Htok; [|done].
  assert (HV : visitedTokens (Tokens (ringDesc r)) start (S (w_iterations st)) =
               visitedTokens (Tokens (ringDesc r)) start (w_iterations st) ++ [token])
    by (apply visitedTokens_S; by rewrite <- Hidx).
  pose proof (index_step _ _ _ _ Hidx) as Hidx'.
  pose proof (leavingFirstSeen_snoc
                (visitedTokens (Tokens (ringDesc r)) start (w_iterations st))
                ∅ token) as Hsnoc.
  rewrite union_empty_l_L, <- Hdh in Hsnoc.
  destruct (decide (Ingester token ∈ w_distinctHosts st)) as [Hin|Hout].
  - simplify_eq. constructor; walk_simpl.
    + lia.
    + done.
    + rewrite HV, tokenHosts_snoc, <- Hdh. set_solver.
    + rewrite HV, Hsnoc. lia.
    + done.
    + by exists hosts.
  - pose proof (size_add_host _ _ Hout) as Hsize.
    assert (Hhosts : {[Ingester token]} ∪ w_distinctHosts st =
                     tokenHosts (visitedTokens (Tokens (ringDesc r)) start
                                   (S (w_iterations st))))
      by (rewrite HV, tokenHosts_snoc, <- Hdh; set_solver).
    assert (Happ : ∃ hosts' : list string,
               w_ingesters st ++ [mapIndex (Ingesters (ringDesc r)) (Ingester token)] =
               mapIndex (Ingesters (ringDesc r)) <$> hosts' ∧
               NoDup hosts' ∧
               (∀ h, h ∈ hosts' → h ∈ {[Ingester token]} ∪ w_distinctHosts st) ∧
               (op = Read → length hosts' =
                            size ({[Ingester token]} ∪ w_distinctHosts st))).
    { exists (hosts ++ [Ingester token]). split; [by rewrite fmap_app, Hing|].
      split; [by eapply NoDup_snoc_host|]. split.
      - intros h [Hh| ->%list_elem_of_singleton]%elem_of_app; set_solver.
      - intros Hop. rewrite length_app, Hsize, Hlen by done. simpl. lia. }
    assert (Hsz1 : 0 ≤ n0 →
              Z.of_nat (size ({[Ingester token]} ∪ w_distinctHosts st)) ≤ w_n st)
      by (intros Hn0; rewrite Hsize; lia).
    assert (Hsz2 : 0 ≤ n0 →
              Z.of_nat (size ({[Ingester token]} ∪ w_distinctHosts st)) ≤ w_n st + 1)
      by (intros Hn0; specialize (Hsz1 Hn0); lia).
    destruct (isLeaving (State token)) eqn:Hleave.
    + destruct op; simplify_eq; constructor; walk_simpl.
      * lia.
      * done.
      * done.
      * rewrite HV, Hsnoc. lia.
      * done.
      * done.
      * lia.
      * done.
      * done.
      * rewrite HV, Hsnoc. lia.
      * done.
      * exists hosts. split; [done|]. split; [done|]. split; [set_solver|done].
    + simplify_eq. constructor; walk_simpl.
      * lia.
      * done.
      * done.
      * rewrite HV, Hsnoc. lia.
      * done.
      * done.
Qed.

(** The loop never panics on a non-empty ring, it keeps [walkInv], and
    [len(Tokens)] passes of fuel are enough for it to leave by its own
    condition. *)
Lemma walkLoop_spec r op start n0 fuel : ∀ st,
  Tokens (ringDesc r) ≠ [] →
  walkInv r op start n0 st →
  ∃ st', walkLoop r op fuel st = Some st' ∧
         walkInv r op start n0 st' ∧
         ((length (Tokens (ringDesc r)) ≤ w_iterations st + fuel)%nat →
          loopCond r st' = false).
Proof.
  induction fuel as [|fuel IH]; intros st Hne Hinv; simpl.
  - exists st. split; [done|]. split; [done|].
    intros Hlen. unfold loopCond. apply andb_false_iff. right.
    apply Nat.ltb_ge. lia.
  - destruct (loopCond r st) eqn:Hcond; [|by exists st].
    destruct (loopBody_total r op st Hne) as [st1 Hbody]. rewrite Hbody.
    pose proof (walkInv_step _ _ _ _ _ _ Hinv Hcond Hbody) as Hinv1.
    destruct (IH st1 Hne Hinv1) as (st' & Hrun & Hinv' & Hend).
    exists st'. split; [done|]. split; [done|].
    intros Hlen. apply Hend.
    assert (w_iterations st1 = S (w_iterations st)) as ->; [|lia].
    clear -Hbody. unfold loopBody in Hbody.
    repeat (case_match; simplify_eq/=; try done).
Qed.

Lemma walk_spec r key n op :
  Tokens (ringDesc r) ≠ [] →
  ∃ start st,
    search r key = Some start ∧
    (start < length (Tokens (ringDesc r)))%nat ∧
    walk r key n op = Some st ∧
    walkInv r op start n st ∧
    loopCond r st = false.
Proof.
  intros Hne. destruct (search_in_range r key Hne) as (start & Hs & Hlt).
  destruct (walkLoop_spec r op start n (length (Tokens (ringDesc r)))
              (mkWalk start 0 n ∅ []) Hne (walkInv_init _ _ _ _))
    as (st & Hrun & Hinv & Hend).
  exists start, st. unfold walk. rewrite Hs.
  do 4 (split; [done|]). apply Hend. simpl. lia.
Qed.

(** *** [getInternal] and [Get] *)

Lemma Get_empty r key n op :
  Tokens (ringDesc r) = [] → Get r key n op = Returns [] (Some ErrEmptyRing).
Proof. intros H. unfold Get, getInternal. by rewrite H. Qed.


Lemma Get_walk r key n op st :
  Tokens (ringDesc r) ≠ [] → 0 ≤ n →
  walk r key n op = Some st →
  Get r key n op = Returns (w_ingesters st) None.
Proof.
  intros Hne Hn Hwalk. unfold Get, getInternal.
  destruct (Tokens (ringDesc r)); [done|]. simpl.
  apply Z.ltb_ge in Hn as ->. by rewrite Hwalk.
Qed.

Lemma Get_error_inv r key n op res err :
  Get r key n op = Returns res (Some err) → Tokens (ringDesc r) = [].
Proof.
  unfold Get, getInternal. intros Hres.
  destruct (Tokens (ringDesc r)) as [|t ts]; [done|]. simpl in Hres.
  destruct (n <? 0); [done|]. by destruct (walk _ _ _ _).
Qed.

(** Scenarios of the specification, run on the code. *)
Example get_25_2_read : Get ringABC 25 2 Read = Returns [nodeC; nodeA] None.
Proof. vm_compute. reflexivity. Qed.

Example get_5_1_write : Get ringLeavingB 5 1 Write = Returns [nodeA] None.
Proof. vm_compute. reflexivity. Qed.

Example get_15_1_write : Get ringLeavingB 15 1 Write = Returns [nodeC] None.
Proof. vm_compute. reflexivity. Qed.

Example get_15_1_read : Get ringLeavingB 15 1 Read = Returns [nodeB; nodeC] None.
Proof. vm_compute. reflexivity. Qed.

(** The walk of [get(15, 1, Write)] ends after two passes with target 2 and
    both [B] and [C] among the distinct hosts. *)
Example walk_15_1_write :
  walk ringLeavingB 15 1 Write = Some (mkWalk 3 2 2 {["B"; "C"]} [nodeC]).
Proof. vm_compute. reflexivity. Qed.

(** On the ring of the scenario the result is made of the map entries of the
    hosts [A] and [C], whatever the node map holds. *)
Lemma get_leavingB_any_map (m : gmap string IngesterDesc) (timeout : Z) :
  Get (mkRing (mkDesc m tokensLeavingB) timeout) 5 1 Write
    = Returns [mapIndex m "A"] None ∧
  Get (mkRing (mkDesc m tokensLeavingB) timeout) 15 1 Write
    = Returns [mapIndex m "C"] None.
Proof. split; vm_compute; reflexivity. Qed.

(** C1, as stated, fails: [get(15, 1, Write)] does not return [[C, A]]. *)
Lemma get_15_1_write_counterexample :
  ¬ (Get ringLeavingB 5 1 Write = Returns [nodeA] None ∧
     Get ringLeavingB 15 1 Write = Returns [nodeC; nodeA] None).
Proof. intros [_ H]. rewrite get_15_1_write in H. discriminate. Qed.

(** C1 (amended): for the tokens [(10, A, Active), (20, B, Leaving),
    (30, C, Active)] and a node map that holds A, B and C, [get(5, 1, Write)]
    returns exactly [[A]] and [get(15, 1, Write)] returns exactly [[C]]: the
    walk starts at token 20, B raises the target to 2 and is skipped for the
    write but is counted among the distinct hosts, so that collecting C ends
    the walk. *)
Theorem get_leavingB_scenario (m : gmap string IngesterDesc) (timeout : Z)
    (a b c : IngesterDesc) :
  m !! "A" = Some a → m !! "B" = Some b → m !! "C" = Some c →
  Get (mkRing (mkDesc m tokensLeavingB) timeout) 5 1 Write = Returns [a] None ∧
  Get (mkRing (mkDesc m tokensLeavingB) timeout) 15 1 Write = Returns [c] None.
Proof.
  intros Ha Hb Hc.
  destruct (get_leavingB_any_map m timeout) as [-> ->].
  unfold mapIndex. by rewrite Ha, Hc.
Qed.

(** [get_leavingB_scenario] with the node map [nodesABC]. *)
Lemma get_leavingB_scenario_witness :
  Get ringLeavingB 5 1 Write = Returns [nodeA] None ∧
  Get ringLeavingB 15 1 Write = Returns [nodeC] None.
Proof.
  apply (get_leavingB_scenario nodesABC 60 nodeA nodeB nodeC);
    vm_compute; reflexivity.
Defined.




(** C4, as stated, fails: node [X] owns two Leaving tokens, both are passed
    over by the walk of [get(5, 1, Read)], and the target ends at 2, not 3. *)
Lemma inflation_per_token_counterexample :
  walk ringTwoLeaving 5 1 Read
    = Some (mkWalk 3 3 2 {["X"; "Y"]}
              [mkIngester "X" "x:9095" 100; mkIngester "Y" "y:9095" 100]) ∧
  countLeaving (visitedTokens (Tokens (ringDesc ringTwoLeaving)) 0 3) = 2 ∧
  ¬ inflatesPerLeavingToken ringTwoLeaving 5 1 Read.
Proof.
  split; [vm_compute; reflexivity|]. split; [vm_compute; reflexivity|].
  intros H.
  specialize (H 0%nat
                (mkWalk 3 3 2 {["X"; "Y"]}
                   [mkIngester "X" "x:9095" 100; mkIngester "Y" "y:9095" 100])).
  vm_compute in H. specialize (H eq_refl eq_refl). discriminate.
Qed.

(** C4 (amended): during one resolution walk the target [n] grows by one for
    each Leaving token passed over whose node was not met earlier in the
    walk; a token of a node already among the distinct hosts is skipped
    before its state is looked at and does not raise [n] again. *)
Theorem inflation_per_first_seen_leaving r key n op :
  Tokens (ringDesc r) ≠ [] →
  ∃ start st,
    search r key = Some start ∧
    walk r key n op = Some st ∧
    loopCond r st = false ∧
    w_n st = n + leavingFirstSeen ∅
                   (visitedTokens (Tokens (ringDesc r)) start (w_iterations st)).
Proof.
  intros Hne.
  destruct (walk_spec r key n op Hne) as (start & st & Hs & _ & Hwalk & Hinv & Hend).
  exists start, st. do 3 (split; [done|]). apply Hinv.
Qed.

(** [inflation_per_first_seen_leaving] on the ring whose node [X] owns two
    Leaving tokens. *)
Lemma inflation_per_first_seen_leaving_witness :
  ∃ start st,
    search ringTwoLeaving 5 = Some start ∧
    walk ringTwoLeaving 5 1 Read = Some st ∧
    loopCond ringTwoLeaving st = false ∧
    w_n st = 1 + leavingFirstSeen ∅
                   (visitedTokens (Tokens (ringDesc ringTwoLeaving)) start
                      (w_iterations st)).
Proof.
  apply (inflation_per_first_seen_leaving ringTwoLeaving 5 1 Read).
  simpl. discriminate.
Defined.

(** C6: [get] returns the EmptyRing error exactly when the descriptor has no
    tokens: with zero tokens every key, [n] and operation yield
    [ErrEmptyRing], and with at least one token no call does. *)
Theorem get_empty_ring_iff r key n op :
  (Tokens (ringDesc r) = [] →
   Get r key n op = Returns [] (Some ErrEmptyRing)) ∧
  ((∃ res, Get r key n op = Returns res (Some ErrEmptyRing)) ↔
   Tokens (ringDesc r) = []).
Proof.
  split; [apply Get_empty|]. split.
  - intros [res Hres]. by eapply Get_error_inv.
  - intros Hemp. exists []. by apply Get_empty.
Qed.

(** *** The node map does not steer the walk *)

Lemma search_withIngesters r m key : search (withIngesters r m) key = search r key.
Proof. reflexivity. Qed.

Lemma loopCond_hostsView r m hosts st st' :
  hostsView m hosts st st' →
  loopCond (withIngesters r m) st' = loopCond r st.
Proof.
  intros (Hi & Hit & Hn & Hdh & _). unfold loopCond. simpl.
  by rewrite Hit, Hn, Hdh.
Qed.




Lemma withIngesters_same r : withIngesters r (Ingesters (ringDesc r)) = r.
Proof. by destruct r as [[m tokens] timeout]. Qed.


(** With two absent nodes the zero-value entry is returned twice. *)
Example get_two_absent_nodes :
  Get (withIngesters ringABC ∅) 5 2 Read
    = Returns [zeroIngesterDesc; zeroIngesterDesc] None.
Proof. vm_compute. reflexivity. Qed.



(** *** [BatchGet] *)

(** What the [range keys] loop does, by the outcome of the keys: [i] entries
    of [result] are filled when the loop starts on [keys]. *)
Lemma batchLoop_spec r n op keys : ∀ i result,
  length result = (i + length keys)%nat →
  match batchLoop r n op keys i result with
  | Returns rs None =>
      ∃ rs', rs = take i result ++ rs' ∧
             Forall2 (λ key res, Get r key n op = Returns res None) keys rs'
  | Returns rs (Some err) =>
      rs = [] ∧ ∃ key res, key ∈ keys ∧ Get r key n op = Returns res (Some err)
  | Panics => ∃ key, key ∈ keys ∧ Get r key n op = Panics
  end.
Proof.
  induction keys as [|key keys IH]; intros i result Hlen; simpl in *.
  - exists []. split; [|constructor].
    rewrite app_nil_r, take_ge; [done|lia].
  - unfold Get in *. destruct (getInternal r key n op) as [res [err|]|] eqn:Hget.
    + split; [done|]. exists key, res. split; [left|done].
    + specialize (IH (S i) (<[i:=res]> result)).
      rewrite length_insert in IH. specialize (IH ltac:(lia)).
      destruct (batchLoop r n op keys (S i) (<[i:=res]> result))
        as [rs [err|]|].
      * destruct IH as (-> & key' & res' & Hin & Hget'). split; [done|].
        exists key', res'. split; [by right|done].
      * destruct IH as (rs' & -> & Hall). exists (res :: rs'). split.
        -- rewrite (take_S_r _ _ res) by (apply list_lookup_insert_eq; lia).
           rewrite take_insert_ge by lia. by rewrite <- app_assoc.
        -- by constructor.
      * destruct IH as (key' & Hin & Hget'). exists key'. split; [by right|done].
    + exists key. split; [left|done].
Qed.

(** Against one descriptor the kind of outcome of [get] does not depend on
    the key. *)
Lemma Get_error_any_key r n op key key' res err :
  Get r key n op = Returns res (Some err) →
  Get r key' n op = Returns [] (Some ErrEmptyRing).
Proof.
  intros Hget. apply Get_empty. by eapply Get_error_inv.
Qed.

Lemma Forall2_Get_lookup r n op keys rs :
  Forall2 (λ key res, Get r key n op = Returns res None) keys rs →
  length rs = length keys ∧
  ∀ i key, keys !! i = Some key →
           ∃ res, rs !! i = Some res ∧ Get r key n op = Returns res None.
Proof.
  intros Hall. split; [symmetry; by eapply Forall2_length|].
  intros i key Hkey.
  destruct (Forall2_lookup_l _ _ _ _ _ Hall Hkey) as (res & Hres & Hget). eauto.
Qed.

(** C7: against one descriptor, a successful [batchGet(keys, n, op)] returns
    a sequence as long as [keys] whose element [i] is what
    [get(keys[i], n, op)] returns; it succeeds, with exactly those results,
    when every key resolves; and when resolution fails for some key the
    batch returns that error with a nil result. *)
Theorem batchGet_pointwise_get r keys n op :
  (∀ rs, BatchGet r keys n op = Returns rs None →
         length rs = length keys ∧
         ∀ i key, keys !! i = Some key →
                  ∃ res, rs !! i = Some res ∧ Get r key n op = Returns res None) ∧
  (∀ rs, Forall2 (λ key res, Get r key n op = Returns res None) keys rs →
         BatchGet r keys n op = Returns rs None) ∧
  (∀ key res err, key ∈ keys →
                  Get r key n op = Returns res (Some err) →
                  BatchGet r keys n op = Returns [] (Some err)).
Proof.
  pose proof (batchLoop_spec r n op keys 0 (replicate (length keys) []))
    as Hspec.
  rewrite length_replicate in Hspec. specialize (Hspec eq_refl).
  fold (BatchGet r keys n op) in Hspec.
  split; [|split].
  - intros rs Hrs. rewrite Hrs in Hspec. destruct Hspec as (rs' & -> & Hall).
    rewrite take_0. simpl. by apply Forall2_Get_lookup.
  - intros rs Hall. destruct (BatchGet r keys n op) as [rs0 [err|]|].
    + destruct Hspec as (_ & key & res & Hin & Hget).
      apply list_elem_of_lookup_1 in Hin as [i Hi].
      destruct (Forall2_lookup_l _ _ _ _ _ Hall Hi) as (res' & _ & Hget').
      congruence.
    + destruct Hspec as (rs' & -> & Hall'). rewrite take_0. simpl. f_equal.
      clear -Hall Hall'. revert rs' Hall'.
      induction Hall as [|key res keys rs Hget Hall IH]; intros rs' Hall';
        inversion Hall' as [|? res' ? rs'' Hget' Hall'']; subst; [done|].
      f_equal; [congruence|by apply IH].
    + destruct Hspec as (key & Hin & Hget).
      apply list_elem_of_lookup_1 in Hin as [i Hi].
      destruct (Forall2_lookup_l _ _ _ _ _ Hall Hi) as (res' & _ & Hget').
      congruence.
  - intros key res err Hin Hget. destruct err.
    assert (Hall : ∀ key', Get r key' n op = Returns [] (Some ErrEmptyRing))
      by (intros key'; by eapply Get_error_any_key).
    destruct (BatchGet r keys n op) as [rs0 [[]|]|].
    + by destruct Hspec as (-> & _).
    + destruct Hspec as (rs' & -> & Hall').
      apply list_elem_of_lookup_1 in Hin as [i Hi].
      destruct (Forall2_lookup_l _ _ _ _ _ Hall' Hi) as (res' & _ & Hget').
      rewrite Hall in Hget'. discriminate.
    + destruct Hspec as (key' & _ & Hget'). rewrite Hall in Hget'. discriminate.
Qed.

Example batchGet_three_keys :
  BatchGet ringLeavingB [5; 15; 25] 1 Write
    = Returns [[nodeA]; [nodeC]; [nodeC]] None.
Proof. vm_compute. reflexivity. Qed.

(** C10: [batchGet] with no keys returns an empty result and no error, also
    on a descriptor without tokens, where [get] fails with EmptyRing for
    every key. *)
Theorem batchGet_no_keys r n op :
  BatchGet r [] n op = Returns [] None ∧
  (Tokens (ringDesc r) = [] →
   ∀ key, Get r key n op = Returns [] (Some ErrEmptyRing)).
Proof. split; [reflexivity|]. intros Hemp key. by apply Get_empty. Qed.

Example batchGet_no_keys_empty_ring :
  BatchGet ringEmpty [] 3 Write = Returns [] None ∧
  Get ringEmpty 7 3 Write = Returns [] (Some ErrEmptyRing).
Proof. split; reflexivity. Qed.

(** *** The watch callback *)

Lemma loop_app r values1 values2 :
  loop r (values1 ++ values2) = loop (loop r values1) values2.
Proof.
  revert r. induction values1 as [|value values1 IH]; intros r; simpl; [done|].
  destruct value; simpl; apply IH.
Qed.

(** C9: a callback with a nil value leaves the engine as it was, current
    descriptor included, and asks to keep watching; a callback with a
    descriptor installs exactly that descriptor and asks to keep watching;
    hence a nil delivered anywhere in a run of the watch loop changes
    nothing. *)
Theorem watch_nil_keeps_descriptor r :
  watchCallback r None = (r, true) ∧
  (∀ d, watchCallback r (Some d) = (mkRing d (heartbeatTimeout r), true)) ∧
  (∀ values1 values2,
     loop r (values1 ++ None :: values2) = loop r (values1 ++ values2)).
Proof.
  split; [done|]. split; [done|].
  intros values1 values2. by rewrite !loop_app.
Qed.

Example watch_nil_after_good_ring :
  ringDesc (loop ringEmpty [None; Some (ringDesc ringABC); None]) = ringDesc ringABC.
Proof. reflexivity. Qed.

(** *** Ownership *)

Lemma sumOwned_insert_fresh (m : gmap string Z) k v :
  m !! k = None → sumOwned (<[k:=v]> m) = v + sumOwned m.
Proof.
  intros Hk. unfold sumOwned. rewrite map_fold_insert_L; [done| |done].
  intros. lia.
Qed.

Lemma sumOwned_lookup (m : gmap string Z) k v :
  m !! k = Some v → sumOwned m = v + sumOwned (delete k m).
Proof.
  intros Hk. rewrite <- (insert_delete_id m k v Hk) at 1.
  apply sumOwned_insert_fresh, lookup_delete_eq.
Qed.

Lemma sumOwned_nonneg (m : gmap string Z) :
  map_Forall (λ _ v, 0 ≤ v) m → 0 ≤ sumOwned m.
Proof.
  induction m as [|k v m Hk IH] using map_ind; intros Hall.
  - unfold sumOwned. by rewrite map_fold_empty.
  - rewrite sumOwned_insert_fresh by done.
    apply map_Forall_insert in Hall as [Hv Hm]; [|done].
    specialize (IH Hm). lia.
Qed.

Lemma sumOwned_bounds_entry (m : gmap string Z) k :
  map_Forall (λ _ v, 0 ≤ v) m → 0 ≤ default 0 (m !! k) ≤ sumOwned m.
Proof.
  intros Hall. pose proof (sumOwned_nonneg m Hall) as Hsum.
  destruct (m !! k) as [v|] eqn:Hk; simpl; [|lia].
  rewrite (sumOwned_lookup m k v Hk).
  pose proof (Hall k v Hk) as Hv. simpl in Hv.
  assert (0 ≤ sumOwned (delete k m)); [|lia].
  apply sumOwned_nonneg. intros j w Hj.
  apply lookup_delete_Some in Hj as [_ Hj]. by apply (Hall j w).
Qed.

Lemma sumOwned_add (m : gmap string Z) k d :
  sumOwned (<[k := default 0 (m !! k) + d]> m) = sumOwned m + d.
Proof.
  destruct (m !! k) as [v|] eqn:Hk; simpl.
  - rewrite <- insert_delete_eq.
    rewrite sumOwned_insert_fresh by apply lookup_delete_eq.
    rewrite (sumOwned_lookup m k v Hk). lia.
  - rewrite sumOwned_insert_fresh by done. lia.
Qed.

Lemma wrap32_small x : 0 ≤ x ≤ MaxUint32 → wrap32 x = x.
Proof. intros Hx. unfold wrap32, MaxUint32 in *. apply Z.mod_small. lia. Qed.

Section ownership.
Variable tokens : list TokenDesc.
Hypothesis tokens_sorted : tokensStrictlySorted tokens.
Hypothesis tokens_uint32 : tokensUint32 tokens.

Lemma token_uint32 i t : tokens !! i = Some t → 0 ≤ Token t ≤ MaxUint32.
Proof.
  intros Ht. unfold tokensUint32 in tokens_uint32.
  rewrite Forall_lookup in tokens_uint32. by apply (tokens_uint32 i t).
Qed.

Lemma token_lt i j a b :
  (i < j)%nat → tokens !! i = Some a → tokens !! j = Some b → Token a < Token b.
Proof.
  intros Hij Ha Hb.
  assert (Hs : StronglySorted (λ a b, Token a < Token b) tokens).
  { apply Sorted_StronglySorted; [|done]. intros x y z Hx Hy. lia. }
  by apply (StronglySorted_lookup_lt _ _ Hs i j).
Qed.

Lemma tokenDiff_spec i token :
  tokens !! i = Some token →
  ∃ diff, tokenDiff tokens i token = Some diff ∧
          0 ≤ diff ∧
          ownedBefore tokens (S i) = ownedBefore tokens i + diff ∧
          ownedBefore tokens (S i) ≤ MaxUint32.
Proof.
  intros Ht. pose proof (lookup_lt_Some _ _ _ Ht) as Hlt.
  destruct (lookup_lt_is_Some_2 tokens 0%nat ltac:(lia)) as [first Hfirst].
  pose proof (token_uint32 _ _ Ht) as Hut.
  pose proof (token_uint32 _ _ Hfirst) as Huf.
  assert (Hle : Token first ≤ Token token).
  { destruct (decide (i = 0%nat)) as [->|Hne]; [simplify_eq; lia|].
    pose proof (token_lt 0%nat i first token ltac:(lia) Hfirst Ht). lia. }
  unfold tokenDiff, ownedBefore. rewrite Ht, Hfirst.
  destruct (Nat.eqb_spec (i + 1) (length tokens)) as [Hlast|Hmore].
  - rewrite (lookup_ge_None_2 tokens (S i)) by lia.
    rewrite (wrap32_small (MaxUint32 - Token token)) by lia.
    rewrite wrap32_small by lia.
    eexists. split; [done|]. lia.
  - destruct (lookup_lt_is_Some_2 tokens (S i) ltac:(lia)) as [next Hnext].
    rewrite Nat.add_1_r, Hnext.
    pose proof (token_uint32 _ _ Hnext) as Hun.
    pose proof (token_lt i (S i) token next ltac:(lia) Ht Hnext).
    rewrite wrap32_small by lia.
    eexists. split; [done|]. lia.
Qed.

Lemma ownedLoop_spec : ∀ rest i (m : gmap string Z),
  drop i tokens = rest →
  map_Forall (λ _ v, 0 ≤ v) m →
  sumOwned m = ownedBefore tokens i →
  ∃ m', ownedLoop tokens rest i m = Some m' ∧
        map_Forall (λ _ v, 0 ≤ v) m' ∧
        sumOwned m' = MaxUint32.
Proof.
  induction rest as [|token rest IH]; intros i m Hdrop Hpos Hsum; simpl.
  - exists m. split; [done|]. split; [done|].
    rewrite Hsum. unfold ownedBefore.
    rewrite (lookup_ge_None_2 tokens i); [done|].
    apply drop_nil_inv in Hdrop. lia.
  - assert (Ht : tokens !! i = Some token).
    { pose proof (lookup_drop tokens i 0) as Hl.
      rewrite Hdrop, Nat.add_0_r in Hl. done. }
    destruct (tokenDiff_spec i token Ht) as (diff & -> & Hdiff & Hnext & Hmax).
    pose proof (sumOwned_bounds_entry m (Ingester token) Hpos) as Hentry.
    rewrite wrap32_small by lia.
    apply IH.
    + rewrite (drop_S _ _ _ Ht) in Hdrop. by simplify_eq.
    + apply map_Forall_insert_2; [lia|done].
    + rewrite sumOwned_add. lia.
Qed.
End ownership.

Lemma sumQ_ownershipMetrics (m : gmap string Z) :
  (sumQ (snd <$> ownershipMetrics m) == inject_Z (sumOwned m) / inject_Z MaxUint32)%Q.
Proof.
  unfold ownershipMetrics, sumOwned. rewrite map_fold_foldr.
  induction (map_to_list m) as [|[id totalOwned] l IH]; simpl.
  - reflexivity.
  - rewrite IH. unfold ownershipFraction. rewrite inject_Z_plus. field.
    unfold MaxUint32. intros H. discriminate H.
Qed.

(** C8, as stated, fails for the values that [Collect] exports: on a
    strictly sorted ring of three nodes the float64 gauges, taken as the
    exact numbers they are, add up to a number below 1, and added in float64
    they give a value other than 1.0 in each of the six orders. *)
Lemma ownership_gauges_counterexample :
  Tokens (ringDesc ringThreeShares) ≠ [] ∧
  tokensStrictlySorted (Tokens (ringDesc ringThreeShares)) ∧
  tokensUint32 (Tokens (ringDesc ringThreeShares)) ∧
  owned ringThreeShares
    = Some (<["A" := 1134717409]>
              (<["B" := 695114348]> (<["C" := 2465135538]> ∅))) ∧
  ¬ gaugesSumToOne ringThreeShares ∧
  forallb (λ l, negb (PrimFloat.eqb (floatSum l) (float64 1)))
    (permutations
       [ownershipGauge 1134717409; ownershipGauge 695114348;
        ownershipGauge 2465135538])
  = true.
Proof.
  assert (Hown : owned ringThreeShares
                 = Some (<["A" := 1134717409]>
                           (<["B" := 695114348]> (<["C" := 2465135538]> ∅))))
    by (vm_compute; reflexivity).
  split; [simpl; discriminate|].
  split; [unfold tokensStrictlySorted; simpl; repeat constructor|].
  split.
  { unfold tokensUint32, MaxUint32. simpl.
    repeat (apply Forall_cons_2; [simpl; lia|]). apply Forall_nil_2. }
  split; [done|]. split; [|vm_compute; reflexivity].
  intros (m & total & Hm & Hsum & Hone).
  rewrite Hown in Hm. injection Hm as <-.
  vm_compute in Hsum. injection Hsum as <-.
  unfold Qeq in Hone. vm_compute in Hone. discriminate.
Qed.

(** C8 (amended): for a non-empty, strictly sorted list of [uint32] tokens
    the loop of [Collect] completes, the 32-bit sums it stores per node
    never wrap, they add up to exactly 2^32 - 1 over all nodes, and so the
    ownership fractions as exact quotients, each sum divided by 2^32 - 1,
    add up to exactly 1; the exported gauges are the float64 roundings of
    these quotients. *)
Theorem ownership_fractions_sum_to_one r :
  Tokens (ringDesc r) ≠ [] →
  tokensStrictlySorted (Tokens (ringDesc r)) →
  tokensUint32 (Tokens (ringDesc r)) →
  ∃ m, owned r = Some m ∧
       map_Forall (λ _ totalOwned, 0 ≤ totalOwned ≤ MaxUint32) m ∧
       sumOwned m = MaxUint32 ∧
       (sumQ (snd <$> ownershipMetrics m) == 1)%Q.
Proof.
  intros Hne Hsorted Hu32.
  destruct (ownedLoop_spec (Tokens (ringDesc r)) Hsorted Hu32
              (Tokens (ringDesc r)) 0%nat ∅) as (m & Hm & Hpos & Hsum).
  - done.
  - apply map_Forall_empty.
  - unfold sumOwned, ownedBefore. rewrite map_fold_empty.
    destruct (Tokens (ringDesc r)) as [|t ts]; [done|]. simpl. lia.
  - exists m. split; [done|]. split; [|split; [done|]].
    + intros k v Hk. pose proof (sumOwned_bounds_entry m k Hpos) as Hb.
      rewrite Hk in Hb. simpl in Hb. lia.
    + rewrite sumQ_ownershipMetrics, Hsum. reflexivity.
Qed.

(** [ownership_fractions_sum_to_one] on the ring with node [B] leaving. *)
Lemma ownership_fractions_sum_to_one_witness :
  ∃ m, owned ringLeavingB = Some m ∧
       map_Forall (λ _ totalOwned, 0 ≤ totalOwned ≤ MaxUint32) m ∧
       sumOwned m = MaxUint32 ∧
       (sumQ (snd <$> ownershipMetrics m) == 1)%Q.
Proof.
  apply (ownership_fractions_sum_to_one ringLeavingB).
  - simpl. discriminate.
  - unfold tokensStrictlySorted. simpl. repeat constructor; simpl; lia.
  - unfold tokensUint32, MaxUint32. simpl. repeat constructor; simpl; lia.
Defined.

Example owned_leavingB :
  owned ringLeavingB
    = Some (<["A" := 10]> (<["B" := 10]> (<["C" := 4294967275]> ∅))).
Proof. vm_compute. reflexivity. Qed.

(** ** Further properties of the resolver *)

(** *** The hosts behind the returned entries *)

Lemma loopBody_passHosts r op st st1 :
  loopBody r op st = Some st1 →
  ∀ m hosts st',
    hostsView m hosts st st' →
    ∃ st1', loopBody (withIngesters r m) op st' = Some st1' ∧
            hostsView m (hosts ++ passHosts r op st) st1 st1'.
Proof.
  unfold loopBody, passHosts. intros Hbody m hosts st' (Hi & Hit & Hn & Hdh & Hing).
  cbn [withIngesters ringDesc Tokens Ingesters].
  rewrite Hi, Hit, Hn, Hdh.
  destruct (Tokens (ringDesc r) !! (w_i st mod length (Tokens (ringDesc r)))%nat)
    as [token|]; [|done].
  destruct (decide (Ingester token ∈ w_distinctHosts st)).
  { simplify_eq. eexists. split; [done|]. do 4 (split; [done|]). walk_simpl.
    by rewrite app_nil_r. }
  destruct (isLeaving (State token)); [destruct op|]; simplify_eq; eexists;
    (split; [done|]); do 4 (split; [done|]); walk_simpl;
    by rewrite ?app_nil_r, ?fmap_app, ?Hing.
Qed.

Lemma walkLoop_walkHosts r op fuel : ∀ st st1,
  walkLoop r op fuel st = Some st1 →
  ∀ m hosts st',
    hostsView m hosts st st' →
    ∃ st1', walkLoop (withIngesters r m) op fuel st' = Some st1' ∧
            hostsView m (hosts ++ walkHosts r op fuel st) st1 st1'.
Proof.
  induction fuel as [|fuel IH]; intros st st1 Hrun m hosts st' Hview;
    simpl in Hrun |- *.
  - simplify_eq. exists st'. split; [done|]. by rewrite app_nil_r.
  - rewrite (loopCond_hostsView _ _ _ _ _ Hview).
    destruct (loopCond r st).
    + destruct (loopBody r op st) as [st2|] eqn:Hbody; [|done].
      destruct (loopBody_passHosts _ _ _ _ Hbody m hosts st' Hview)
        as (st2' & -> & Hview2).
      destruct (IH _ _ Hrun m _ st2' Hview2) as (st1' & Hrun' & Hview1).
      exists st1'. split; [done|]. by rewrite app_assoc.
    + simplify_eq. exists st'. split; [done|]. by rewrite app_nil_r.
Qed.

(** [getInternal] returns the node-map entries of [resolvedHosts], whatever
    the node map is. *)
Lemma Get_resolvedHosts r key n op :
  Tokens (ringDesc r) ≠ [] → 0 ≤ n →
  ∀ m, Get (withIngesters r m) key n op
       = Returns (mapIndex m <$> resolvedHosts r key n op) None.
Proof.
  intros Hne Hn m.
  destruct (walk_spec r key n op Hne) as (start & st & Hs & _ & Hwalk & _ & _).
  unfold walk in Hwalk. unfold resolvedHosts. rewrite Hs in Hwalk |- *.
  destruct (walkLoop_walkHosts _ _ _ _ _ Hwalk m [] (mkWalk start 0 n ∅ []))
    as (st' & Hwalk' & (_ & _ & _ & _ & Hing)).
  { by do 4 (split; [done|]). }
  simpl in Hing.
  rewrite (Get_walk (withIngesters r m) key n op st'); [by rewrite Hing|done|done|].
  unfold walk. by rewrite search_withIngesters, Hs.
Qed.

Lemma Get_resolvedHosts_self r key n op :
  Tokens (ringDesc r) ≠ [] → 0 ≤ n →
  Get r key n op
  = Returns (mapIndex (Ingesters (ringDesc r)) <$> resolvedHosts r key n op) None.
Proof.
  intros Hne Hn.
  pose proof (Get_resolvedHosts r key n op Hne Hn (Ingesters (ringDesc r))) as H.
  by rewrite withIngesters_same in H.
Qed.

Lemma visitedTokens_elem_of tokens start k t :
  t ∈ visitedTokens tokens start k → t ∈ tokens.
Proof.
  unfold visitedTokens. intros (j & _ & Hj)%list_elem_of_omap.
  by eapply list_elem_of_lookup_2.
Qed.

Lemma tokenHosts_elem_of tokens h :
  h ∈ tokenHosts tokens ↔ ∃ t, t ∈ tokens ∧ Ingester t = h.
Proof.
  unfold tokenHosts. rewrite elem_of_list_to_set, list_elem_of_fmap.
  naive_solver.
Qed.

Lemma hostsInv_init r op start n0 :
  hostsInv r op start (mkWalk start 0 n0 ∅ []) [].
Proof.
  constructor; walk_simpl.
  - apply NoDup_nil_2.
  - intros h Hh. by apply elem_of_nil in Hh.
  - rewrite size_empty. destruct op; simpl; lia.
  - intros _ h Hh. by apply elem_of_nil in Hh.
  - intros h Hh. by apply elem_of_empty in Hh.
Qed.

Lemma hostsInv_step r op start n0 st st' hosts :
  walkInv r op start n0 st →
  hostsInv r op start st hosts →
  loopCond r st = true →
  loopBody r op st = Some st' →
  hostsInv r op start st' (hosts ++ passHosts r op st).
Proof.
  intros [Hit Hidx Hdh Hn _ _] [Hnd Hseen Hcount Hwrite Hskip] Hcond Hbody.
  unfold loopBody in Hbody. unfold passHosts.
  destruct (Tokens (ringDesc r) !! (w_i st mod length (Tokens (ringDesc r)))%nat)
    as [token|] eqn:Htok; [|done].
  assert (HV : visitedTokens (Tokens (ringDesc r)) start (S (w_iterations st)) =
               visitedTokens (Tokens (ringDesc r)) start (w_iterations st) ++ [token])
    by (apply visitedTokens_S; by rewrite <- Hidx).
  pose proof (leavingFirstSeen_snoc
                (visitedTokens (Tokens (ringDesc r)) start (w_iterations st))
                ∅ token) as Hsnoc.
  rewrite union_empty_l_L, <- Hdh in Hsnoc.
  set (V := visitedTokens (Tokens (ringDesc r)) start (w_iterations st)) in *.
  assert (Hold : ∀ h (b : bool),
            (∃ t, t ∈ V ∧ Ingester t = h ∧ isLeaving (State t) = b) →
            ∃ t, t ∈ V ++ [token] ∧ Ingester t = h ∧ isLeaving (State t) = b).
  { intros h b (t & Ht & Hh & Hb). exists t. split; [|done].
    apply elem_of_app. by left. }
  assert (Hnew : ∀ b, isLeaving (State token) = b →
            ∃ t, t ∈ V ++ [token] ∧ Ingester t = Ingester token ∧
                 isLeaving (State t) = b).
  { intros b Hb. exists token. split; [|done].
    apply elem_of_app. right. by apply list_elem_of_singleton. }
  destruct (decide (Ingester token ∈ w_distinctHosts st)) as [Hin|Hout].
  - simplify_eq. rewrite app_nil_r. constructor; walk_simpl; rewrite ?HV.
    + done.
    + done.
    + rewrite Hsnoc. destruct op; lia.
    + intros Hop h Hh. by apply Hold, Hwrite.
    + intros h Hh Hnot. by apply Hold, Hskip.
  - pose proof (size_add_host _ _ Hout) as Hsize.
    assert (Hnd' : NoDup (hosts ++ [Ingester token]))
      by (by eapply NoDup_snoc_host).
    assert (Hseen' : ∀ h, h ∈ hosts ++ [Ingester token] →
                          h ∈ {[Ingester token]} ∪ w_distinctHosts st).
    { intros h [Hh| ->%list_elem_of_singleton]%elem_of_app; set_solver. }
    assert (Hskip' : ∀ h, h ∈ {[Ingester token]} ∪ w_distinctHosts st →
                          h ∉ hosts ++ [Ingester token] →
                          ∃ t, t ∈ V ++ [token] ∧ Ingester t = h ∧
                               isLeaving (State t) = true).
    { intros h Hh Hnot. apply Hold, Hskip.
      - apply elem_of_union in Hh as [->%elem_of_singleton|Hh]; [|done].
        exfalso. apply Hnot, elem_of_app. right. by apply list_elem_of_singleton.
      - intros Hhosts. apply Hnot, elem_of_app. by left. }
    destruct (isLeaving (State token)) eqn:Hleave.
    + destruct op; simplify_eq; rewrite ?app_nil_r;
        constructor; walk_simpl; rewrite ?HV.
      * done.
      * done.
      * rewrite length_app, Hsize. simpl. lia.
      * done.
      * done.
      * done.
      * intros h Hh. apply elem_of_union. right. by apply Hseen.
      * rewrite Hsnoc, Hsize. lia.
      * intros _ h Hh. by apply Hold, Hwrite.
      * intros h Hh Hnot.
        apply elem_of_union in Hh as [->%elem_of_singleton|Hh].
        -- by apply Hnew.
        -- by apply Hold, Hskip.
    + simplify_eq. constructor; walk_simpl; rewrite ?HV.
      * done.
      * done.
      * rewrite length_app, Hsize, Hsnoc. simpl. destruct op; lia.
      * intros Hop h [Hh| ->%list_elem_of_singleton]%elem_of_app.
        -- by apply Hold, Hwrite.
        -- by apply Hnew.
      * done.
Qed.

Lemma walkHosts_spec r op start n0 fuel : ∀ st st1 hosts,
  walkInv r op start n0 st →
  hostsInv r op start st hosts →
  walkLoop r op fuel st = Some st1 →
  hostsInv r op start st1 (hosts ++ walkHosts r op fuel st).
Proof.
  induction fuel as [|fuel IH]; intros st st1 hosts Hinv Hhosts Hrun;
    simpl in Hrun |- *.
  - simplify_eq. by rewrite app_nil_r.
  - destruct (loopCond r st) eqn:Hcond; [|simplify_eq; by rewrite app_nil_r].
    destruct (loopBody r op st) as [st2|] eqn:Hbody; [|done].
    rewrite app_assoc. eapply IH; [| |done].
    + by eapply walkInv_step.
    + by eapply hostsInv_step.
Qed.

(** The facts about one call of [getInternal] on a non-empty ring, gathered:
    the state [st] in which the loop ends and the hosts it appended. *)
Lemma resolvedHosts_spec r key n op :
  Tokens (ringDesc r) ≠ [] →
  ∃ start st,
    search r key = Some start ∧
    (start < length (Tokens (ringDesc r)))%nat ∧
    walk r key n op = Some st ∧
    walkInv r op start n st ∧
    loopCond r st = false ∧
    hostsInv r op start st (resolvedHosts r key n op).
Proof.
  intros Hne.
  destruct (walk_spec r key n op Hne) as (start & st & Hs & Hlt & Hwalk & Hinv & Hend).
  exists start, st. do 5 (split; [done|]).
  unfold walk in Hwalk. unfold resolvedHosts. rewrite Hs in Hwalk |- *.
  apply (walkHosts_spec r op start n _ _ _ []
           (walkInv_init _ _ _ _) (hostsInv_init _ _ _ n) Hwalk).
Qed.

(** *** How many entries a call returns *)

(** A walk of [len(Tokens)] passes reads every token. *)
Lemma visitedTokens_all tokens start :
  tokenHosts (visitedTokens tokens start (length tokens)) = tokenHosts tokens.
Proof.
  apply set_eq. intros h. split; [apply visitedTokens_subseteq|].
  rewrite !tokenHosts_elem_of. intros (t & [j Hj]%list_elem_of_lookup_1 & Hh).
  exists t. split; [|done].
  pose proof (lookup_lt_Some _ _ _ Hj) as Hlt.
  set (len := length tokens) in *.
  set (k := ((j + len - start mod len) mod len)%nat).
  assert (Hs : (start mod len < len)%nat) by (apply Nat.mod_upper_bound; lia).
  assert (Hk : (k < len)%nat) by (apply Nat.mod_upper_bound; lia).
  assert (Hjk : ((start + k) mod len = j)%nat).
  { subst k. rewrite <- Nat.Div0.add_mod_idemp_l, Nat.Div0.add_mod_idemp_r.
    replace (start mod len + (j + len - start mod len))%nat
      with (j + 1 * len)%nat by lia.
    rewrite Nat.Div0.mod_add. apply Nat.mod_small. lia. }
  unfold visitedTokens. apply list_elem_of_omap. exists k. split.
  - apply elem_of_seq. lia.
  - fold len. by rewrite Hjk.
Qed.

(** The loop ends because the target is met or because every token was read. *)
Lemma walk_end r op start n st :
  0 ≤ n →
  walkInv r op start n st →
  loopCond r st = false →
  Z.of_nat (size (w_distinctHosts st)) = w_n st ∨
  (w_distinctHosts st = tokenHosts (Tokens (ringDesc r)) ∧
   Z.of_nat (size (w_distinctHosts st)) ≤ w_n st).
Proof.
  intros Hn [Hit _ Hdh _ Hsz _] Hend. specialize (Hsz Hn).
  unfold loopCond in Hend. apply andb_false_iff in Hend as [Hend|Hend].
  - apply Z.ltb_ge in Hend. left. lia.
  - apply Nat.ltb_ge in Hend. right. split; [|done].
    assert (w_iterations st = length (Tokens (ringDesc r))) as Heq by lia.
    rewrite Hdh, Heq. apply visitedTokens_all.
Qed.

(** *** The capacity limit of [make] *)

Lemma GetAlloc_within maxCap r key n op :
  0 ≤ n → n ≤ maxCap → GetAlloc maxCap r key n op = Get r key n op.
Proof.
  intros Hn Hcap. unfold GetAlloc, getInternalAlloc, Get, getInternal, walk,
    makeIngesters.
  destruct (length (Tokens (ringDesc r)) =? 0)%nat; [done|].
  apply Z.ltb_ge in Hn as ->. apply Z.ltb_ge in Hcap as ->. simpl.
  by destruct (search r key).
Qed.

Lemma GetAlloc_beyond maxCap r key n op :
  Tokens (ringDesc r) ≠ [] → n < 0 ∨ maxCap < n →
  GetAlloc maxCap r key n op = Panics.
Proof.
  intros Hne Hn. unfold GetAlloc, getInternalAlloc, makeIngesters.
  destruct (Tokens (ringDesc r)); [done|]. simpl.
  destruct Hn as [Hn|Hn]; apply Z.ltb_lt in Hn as ->; [done|].
  by rewrite orb_true_r.
Qed.

(** X1: On a non-empty ring a read panics in [make] for a negative [n] and
    for an [n] beyond the capacity limit; for every other [n] it returns
    without error [n] entries or more, as far as the ring has that many
    distinct token owners: at least [min(n, number of distinct owners)]. *)
Theorem get_read_at_least_n maxCap r key n :
  Tokens (ringDesc r) ≠ [] →
  (n < 0 ∨ maxCap < n → GetAlloc maxCap r key n Read = Panics) ∧
  (0 ≤ n → n ≤ maxCap →
   ∃ res,
     GetAlloc maxCap r key n Read = Returns res None ∧
     Z.min n (Z.of_nat (size (tokenHosts (Tokens (ringDesc r)))))
       ≤ Z.of_nat (length res)).
Proof.
  intros Hne. split; [by apply GetAlloc_beyond|]. intros Hn Hcap.
  destruct (resolvedHosts_spec r key n Read Hne)
    as (start & st & _ & _ & _ & Hinv & Hend & Hhosts).
  eexists. split.
  { rewrite GetAlloc_within by done. by apply Get_resolvedHosts_self. }
  rewrite length_fmap.
  pose proof (hi_count _ _ _ _ _ Hhosts) as Hcount. simpl in Hcount.
  pose proof (inv_n _ _ _ _ _ Hinv) as Hwn.
  pose proof (leavingFirstSeen_bounds
                (visitedTokens (Tokens (ringDesc r)) start (w_iterations st)) ∅).
  destruct (walk_end _ _ _ _ _ Hn Hinv Hend) as [Hmet|[Hall _]].
  - lia.
  - rewrite <- Hall. lia.
Qed.

(** [get_read_at_least_n] on the ring with node [B] leaving, with a
    capacity limit of 1000. *)
Lemma get_read_at_least_n_witness :
  (2 < 0 ∨ 1000 < 2 → GetAlloc 1000 ringLeavingB 15 2 Read = Panics) ∧
  (0 ≤ 2 → 2 ≤ 1000 →
   ∃ res,
     GetAlloc 1000 ringLeavingB 15 2 Read = Returns res None ∧
     Z.min 2 (Z.of_nat (size (tokenHosts (Tokens (ringDesc ringLeavingB)))))
       ≤ Z.of_nat (length res)).
Proof.
  apply (get_read_at_least_n 1000 ringLeavingB 15 2). simpl. discriminate.
Defined.

Lemma activeHosts_resolved r op start st hosts :
  hostsInv r op start st hosts →
  w_distinctHosts st = tokenHosts (Tokens (ringDesc r)) →
  (size (activeHosts (Tokens (ringDesc r))) ≤ length hosts)%nat.
Proof.
  intros [Hnd _ _ _ Hskip] Hall.
  rewrite <- (size_list_to_set (C := gset string) hosts Hnd).
  apply subseteq_size. intros h Hh.
  apply elem_of_list_to_set.
  destruct (decide (h ∈ hosts)) as [|Hnot]; [done|exfalso].
  unfold activeHosts in Hh. apply elem_of_difference in Hh as [Hown Hact].
  rewrite <- Hall in Hown.
  destruct (Hskip h Hown Hnot) as (t & Ht & Hh & Hleave).
  apply Hact, tokenHosts_elem_of. exists t. split; [|done].
  apply list_elem_of_filter. split; [done|].
  by eapply visitedTokens_elem_of.
Qed.

(** X2: On a non-empty ring a write panics in [make] for a negative [n] and
    for an [n] beyond the capacity limit; for every other [n] it returns
    without error at most [n] entries, and exactly [n] when at least [n]
    token owners have no Leaving token. *)
Theorem get_write_at_most_n maxCap r key n :
  Tokens (ringDesc r) ≠ [] →
  (n < 0 ∨ maxCap < n → GetAlloc maxCap r key n Write = Panics) ∧
  (0 ≤ n → n ≤ maxCap →
   ∃ res,
     GetAlloc maxCap r key n Write = Returns res None ∧
     Z.of_nat (length res) ≤ n ∧
     (n ≤ Z.of_nat (size (activeHosts (Tokens (ringDesc r)))) →
      Z.of_nat (length res) = n)).
Proof.
  intros Hne. split; [by apply GetAlloc_beyond|]. intros Hn Hcap.
  destruct (resolvedHosts_spec r key n Write Hne)
    as (start & st & _ & _ & _ & Hinv & Hend & Hhosts).
  eexists. split.
  { rewrite GetAlloc_within by done. by apply Get_resolvedHosts_self. }
  rewrite length_fmap.
  pose proof (hi_count _ _ _ _ _ Hhosts) as Hcount. simpl in Hcount.
  pose proof (inv_n _ _ _ _ _ Hinv) as Hwn.
  pose proof (inv_size _ _ _ _ _ Hinv Hn) as Hsz.
  split; [lia|]. intros Hactive.
  destruct (walk_end _ _ _ _ _ Hn Hinv Hend) as [Hmet|[Hall _]]; [lia|].
  pose proof (activeHosts_resolved _ _ _ _ _ Hhosts Hall). lia.
Qed.

(** [get_write_at_most_n] on the ring with node [B] leaving, with a
    capacity limit of 1000. *)
Lemma get_write_at_most_n_witness :
  (2 < 0 ∨ 1000 < 2 → GetAlloc 1000 ringLeavingB 15 2 Write = Panics) ∧
  (0 ≤ 2 → 2 ≤ 1000 →
   ∃ res,
     GetAlloc 1000 ringLeavingB 15 2 Write = Returns res None ∧
     Z.of_nat (length res) ≤ 2 ∧
     (2 ≤ Z.of_nat (size (activeHosts (Tokens (ringDesc ringLeavingB)))) →
      Z.of_nat (length res) = 2)).
Proof.
  apply (get_write_at_most_n 1000 ringLeavingB 15 2). simpl. discriminate.
Defined.



(** *** Rings without Leaving tokens *)






(** *** Entries of a well-formed descriptor *)



(** *** Growing the replica count *)









(** *** Keys and the start of the walk *)

Lemma sortSearchLoop_ext f g fuel : ∀ i j,
  (∀ x, f x = g x) → sortSearchLoop fuel f i j = sortSearchLoop fuel g i j.
Proof.
  induction fuel as [|fuel IH]; intros i j Hfg; cbn [sortSearchLoop]; [done|].
  destruct (i <? j)%nat; [|done].
  rewrite Hfg. destruct (g _) as [[]|]; [by apply IH..|done].
Qed.

Lemma Get_search r key1 key2 n op :
  search r key1 = search r key2 → Get r key1 n op = Get r key2 n op.
Proof. intros Hs. unfold Get, getInternal, walk. by rewrite Hs. Qed.

(** X7: Two keys that no token hash separates resolve to the same replicas,
    whatever the order of the token list. *)
Theorem get_same_segment r key1 key2 n op :
  Forall (λ t, key1 < Token t ↔ key2 < Token t) (Tokens (ringDesc r)) →
  search r key1 = search r key2 ∧ Get r key1 n op = Get r key2 n op.
Proof.
  intros Hall.
  assert (Hs : search r key1 = search r key2); [|split; [done|by apply Get_search]].
  unfold search, sortSearch.
  rewrite (sortSearchLoop_ext _
             (λ x, match Tokens (ringDesc r) !! x with
                   | Some t => Some (key2 <? Token t)
                   | None => None
                   end)); [done|].
  intros x. destruct (Tokens (ringDesc r) !! x) as [t|] eqn:Hx; [|done].
  rewrite Forall_forall in Hall.
  specialize (Hall t (list_elem_of_lookup_2 _ _ _ Hx)). f_equal.
  destruct (Z.ltb_spec key1 (Token t)), (Z.ltb_spec key2 (Token t)); try done; lia.
Qed.

(** [get_same_segment] for the keys 11 and 19, between the tokens 10 and 20. *)
Lemma get_same_segment_witness :
  search ringLeavingB 11 = search ringLeavingB 19 ∧
  Get ringLeavingB 11 2 Read = Get ringLeavingB 19 2 Read.
Proof.
  apply (get_same_segment ringLeavingB 11 19 2 Read).
  simpl. repeat (apply Forall_cons_2; [simpl; lia|]). apply Forall_nil_2.
Defined.

(** X8: The ring wraps around: a key below every token hash and a key at or
    above every token hash both start the walk at index 0 and resolve to the
    same replicas. *)
Theorem get_wraps_around r low high n op :
  Forall (λ t, low < Token t) (Tokens (ringDesc r)) →
  Forall (λ t, Token t ≤ high) (Tokens (ringDesc r)) →
  search r low = Some 0%nat ∧ search r high = Some 0%nat ∧
  Get r low n op = Get r high n op.
Proof.
  intros Hlow Hhigh. rewrite Forall_forall in Hlow, Hhigh.
  set (tokens := Tokens (ringDesc r)) in *.
  assert (Hs1 : search r low = Some 0%nat).
  { destruct (sortSearch_spec (length tokens) (λ _, true)
                (λ x, match tokens !! x with
                      | Some t => Some (low <? Token t)
                      | None => None
                      end)) as (s & Hs & Hle & Hlo & _); [|done|].
    - intros h Hh. destruct (lookup_lt_is_Some_2 tokens h Hh) as [t Ht].
      rewrite Ht. f_equal. apply Z.ltb_lt, Hlow.
      by eapply list_elem_of_lookup_2.
    - assert (s = 0%nat) as ->.
      { destruct s as [|s]; [done|]. by specialize (Hlo 0%nat ltac:(lia)). }
      unfold search. fold tokens. rewrite Hs. by destruct (_ <=? _)%nat. }
  assert (Hs2 : search r high = Some 0%nat).
  { destruct (sortSearch_spec (length tokens) (λ _, false)
                (λ x, match tokens !! x with
                      | Some t => Some (high <? Token t)
                      | None => None
                      end)) as (s & Hs & Hle & _ & Hhi); [|done|].
    - intros h Hh. destruct (lookup_lt_is_Some_2 tokens h Hh) as [t Ht].
      rewrite Ht. f_equal. apply Z.ltb_ge, Hhigh.
      by eapply list_elem_of_lookup_2.
    - assert (s = length tokens) as ->.
      { destruct (decide (s = length tokens)) as [|Hne]; [done|].
        by specialize (Hhi s ltac:(lia) ltac:(lia)). }
      unfold search. fold tokens. rewrite Hs. by rewrite Nat.leb_refl. }
  split; [done|]. split; [done|]. apply Get_search. by rewrite Hs1, Hs2.
Qed.

(** [get_wraps_around] for the keys 3 and 30 on the ring with node [B]
    leaving. *)
Lemma get_wraps_around_witness :
  search ringLeavingB 3 = Some 0%nat ∧ search ringLeavingB 30 = Some 0%nat ∧
  Get ringLeavingB 3 2 Write = Get ringLeavingB 30 2 Write.
Proof.
  apply (get_wraps_around ringLeavingB 3 30 2 Write); simpl;
    repeat (apply Forall_cons_2; [simpl; lia|]); apply Forall_nil_2.
Defined.

(** X9: Whatever the order of the token list, [search] does not panic and its
    answer is an index of the list. *)
Theorem search_within_tokens r key :
  Tokens (ringDesc r) ≠ [] →
  ∃ start t, search r key = Some start ∧ Tokens (ringDesc r) !! start = Some t.
Proof.
  intros Hne. destruct (search_in_range r key Hne) as (start & Hs & Hlt).
  destruct (lookup_lt_is_Some_2 _ _ Hlt) as [t Ht]. eauto.
Qed.

(** [search_within_tokens] on a token list that is not sorted. *)
Lemma search_within_tokens_witness :
  ∃ start t,
    search (mkRing (mkDesc ∅ [mkToken 30 "C" Active; mkToken 10 "A" Active;
                               mkToken 20 "B" Leaving]) 60) 15 = Some start ∧
    [mkToken 30 "C" Active; mkToken 10 "A" Active; mkToken 20 "B" Leaving]
      !! start = Some t.
Proof.
  apply (search_within_tokens
           (mkRing (mkDesc ∅ [mkToken 30 "C" Active; mkToken 10 "A" Active;
                               mkToken 20 "B" Leaving]) 60) 15).
  simpl. discriminate.
Defined.



(** *** Reads and writes side by side *)












Example write_is_read_less_leaving_15_2 :
  resolvedHosts ringLeavingB 15 2 Read = ["B"; "C"; "A"] ∧
  resolvedHosts ringLeavingB 15 2 Write = ["C"; "A"].
Proof. split; vm_compute; reflexivity. Qed.

(** *** Batches *)

Lemma BatchGet_ok_iff r keys n op rs :
  BatchGet r keys n op = Returns rs None ↔
  Forall2 (λ key res, Get r key n op = Returns res None) keys rs.
Proof.
  pose proof (batchLoop_spec r n op keys 0 (replicate (length keys) []))
    as Hspec.
  rewrite length_replicate in Hspec. specialize (Hspec eq_refl).
  fold (BatchGet r keys n op) in Hspec. split.
  - intros Hrs. rewrite Hrs in Hspec. destruct Hspec as (rs' & -> & Hall).
    by rewrite take_0.
  - intros Hall.
    assert (Hdet : ∀ rs', Forall2 (λ key res, Get r key n op = Returns res None)
                            keys rs' → rs' = rs).
    { clear Hspec. induction Hall as [|key res keys rs Hget Hall IH];
        intros rs' Hall'; inversion Hall' as [|? res' ? rs'' Hget' Hall''];
        subst; [done|].
      f_equal; [congruence|by apply IH]. }
    destruct (BatchGet r keys n op) as [rs0 [err|]|].
    + destruct Hspec as (_ & key & res & [i Hi]%list_elem_of_lookup_1 & Hget).
      destruct (Forall2_lookup_l _ _ _ _ _ Hall Hi) as (res' & _ & Hget').
      congruence.
    + destruct Hspec as (rs' & -> & Hall'). rewrite take_0. simpl.
      by rewrite (Hdet rs' Hall').
    + destruct Hspec as (key & [i Hi]%list_elem_of_lookup_1 & Hget).
      destruct (Forall2_lookup_l _ _ _ _ _ Hall Hi) as (res' & _ & Hget').
      congruence.
Qed.

(** X12: A batch over the concatenation of two key sequences that both resolve
    returns the concatenation of their results, and a batch of one key is
    [get] for that key. *)
Theorem batchGet_app r keys1 keys2 n op rs1 rs2 :
  BatchGet r keys1 n op = Returns rs1 None →
  BatchGet r keys2 n op = Returns rs2 None →
  BatchGet r (keys1 ++ keys2) n op = Returns (rs1 ++ rs2) None ∧
  ∀ key res, Get r key n op = Returns res None →
             BatchGet r [key] n op = Returns [res] None.
Proof.
  rewrite !BatchGet_ok_iff. intros H1 H2. split; [by apply Forall2_app|].
  intros key res Hget. apply BatchGet_ok_iff. by repeat constructor.
Qed.

(** [batchGet_app] for the keys 5 and 15, then 25. *)
Lemma batchGet_app_witness :
  BatchGet ringLeavingB ([5; 15] ++ [25]) 1 Write
    = Returns ([[nodeA]; [nodeC]] ++ [[nodeC]]) None ∧
  ∀ key res, Get ringLeavingB key 1 Write = Returns res None →
             BatchGet ringLeavingB [key] 1 Write = Returns [res] None.
Proof.
  apply (batchGet_app ringLeavingB [5; 15] [25] 1 Write); vm_compute; reflexivity.
Defined.

(** *** The engine over a run of the watch loop *)

(** X13: After any sequence of deliveries the engine holds the last descriptor
    that was delivered, or its initial descriptor if every delivery was nil,
    and its heartbeat timeout is never touched. *)
Theorem loop_last_descriptor r values :
  ringDesc (loop r values) = default (ringDesc r) (last (omap id values)) ∧
  heartbeatTimeout (loop r values) = heartbeatTimeout r.
Proof.
  induction values as [|value values IH] using rev_ind; [done|].
  rewrite loop_app, omap_app. destruct IH as [IHd IHt].
  destruct value as [d|]; simpl.
  - by rewrite last_snoc.
  - by rewrite app_nil_r.
Qed.

(** X14: An engine made by [New] answers every [get] with EmptyRing, and every
    non-empty batch likewise, for as long as the watcher has delivered
    nothing but nil. *)
Theorem new_ring_empty_until_update timeout values key n op :
  Forall (λ value, value = None) values →
  Get (loop (New timeout) values) key n op = Returns [] (Some ErrEmptyRing) ∧
  ∀ keys, BatchGet (loop (New timeout) values) (key :: keys) n op
          = Returns [] (Some ErrEmptyRing).
Proof.
  intros Hnil.
  assert (Hloop : loop (New timeout) values = New timeout).
  { generalize (New timeout). induction Hnil as [|value values -> _ IH];
      intros r; simpl; [done|apply IH]. }
  rewrite Hloop. split; [done|]. intros keys. reflexivity.
Qed.

(** [new_ring_empty_until_update] after two nil deliveries. *)
Lemma new_ring_empty_until_update_witness :
  Get (loop (New 60) [None; None]) 7 3 Read = Returns [] (Some ErrEmptyRing) ∧
  ∀ keys, BatchGet (loop (New 60) [None; None]) (7 :: keys) 3 Read
          = Returns [] (Some ErrEmptyRing).
Proof.
  apply (new_ring_empty_until_update 60 [None; None] 7 3 Read).
  repeat constructor.
Defined.

(** ** [GetAll] and the health counters of [Collect] *)

Lemma getAllLoop_elem_of r clock entries : ∀ k acc ing,
  ing ∈ getAllLoop r clock k entries acc ↔
  ing ∈ acc ∨
  ∃ j id, entries !! j = Some (id, ing) ∧
          heartbeatExpired r (clock (k + j)%nat) ing = false.
Proof.
  induction entries as [|[id0 ing0] entries IH]; intros k acc ing; simpl.
  - split; [by left|]. intros [?|(j & id & Hj & _)]; [done|].
    by rewrite lookup_nil in Hj.
  - destruct (heartbeatExpired r (clock k) ing0) eqn:Hexp; rewrite IH; split.
    + intros [?|(j & id & Hj & Hok)]; [by left|right].
      exists (S j), id. split; [done|]. by rewrite Nat.add_succ_r.
    + intros [?|(j & id & Hj & Hok)]; [by left|].
      destruct j as [|j]; simpl in Hj.
      * simplify_eq. rewrite Nat.add_0_r in Hok. congruence.
      * right. exists j, id. split; [done|]. by rewrite Nat.add_succ_r in Hok.
    + intros [[?| ->%list_elem_of_singleton]%elem_of_app|(j & id & Hj & Hok)].
      * by left.
      * right. exists 0%nat, id0. split; [done|]. by rewrite Nat.add_0_r.
      * right. exists (S j), id. split; [done|]. by rewrite Nat.add_succ_r.
    + intros [?|(j & id & Hj & Hok)].
      * left. apply elem_of_app. by left.
      * destruct j as [|j]; simpl in Hj.
        -- simplify_eq. left. apply elem_of_app. right.
           by apply list_elem_of_singleton.
        -- right. exists j, id. split; [done|]. by rewrite Nat.add_succ_r in Hok.
Qed.


(** X15: [GetAll] returns nodes of the node map only, each one not expired at
    some reading of the clock; it returns every node that is not expired at
    any reading and no node that is expired at every reading; on an engine
    without nodes it returns nothing. *)
Theorem getAll_unexpired_nodes r clock :
  (∀ ing, ing ∈ GetAll r clock →
          ∃ id k, Ingesters (ringDesc r) !! id = Some ing ∧
                  heartbeatExpired r (clock k) ing = false) ∧
  (∀ id ing, Ingesters (ringDesc r) !! id = Some ing →
             (∀ k, heartbeatExpired r (clock k) ing = false) →
             ing ∈ GetAll r clock) ∧
  (∀ ing, (∀ k, heartbeatExpired r (clock k) ing = true) →
          ing ∉ GetAll r clock) ∧
  (Ingesters (ringDesc r) = ∅ → GetAll r clock = []).
Proof.
  unfold GetAll. split; [|split; [|split]].
  - intros ing [Hnil|(j & id & Hj & Hok)]%getAllLoop_elem_of.
    { by apply elem_of_nil in Hnil. }
    exists id, (0 + j)%nat. split; [|done].
    by eapply elem_of_map_to_list, list_elem_of_lookup_2.
  - intros id ing Hid Hok. apply getAllLoop_elem_of. right.
    apply elem_of_map_to_list, list_elem_of_lookup_1 in Hid as [j Hj].
    exists j, id. split; [done|apply Hok].
  - intros ing Hexp [Hnil|(j & id' & Hj & Hok)]%getAllLoop_elem_of.
    { by apply elem_of_nil in Hnil. }
    rewrite Hexp in Hok. discriminate.
  - intros ->. by rewrite map_to_list_empty.
Qed.





(** With a clock that moves between the passes the two loops can disagree:
    node [B] expires between the readings 90 and 150, and the healthy count
    of a scan that reads 90 at [B] is 2 while [GetAll], ranging the other way
    round, reads 150 at [B] and returns one node. *)
Example health_counts_depend_on_order :
  (healthLoop (mkRing (mkDesc ∅ []) 60)
     (λ k, if (k =? 0)%nat then 90 else 150) 0
     [("B", mkIngester "B" "b:9095" 30); ("A", mkIngester "A" "a:9095" 100)] 0 0).1
  = 2 ∧
  length (getAllLoop (mkRing (mkDesc ∅ []) 60)
            (λ k, if (k =? 0)%nat then 90 else 150) 0
            [("A", mkIngester "A" "a:9095" 100); ("B", mkIngester "B" "b:9095" 30)] [])
  = 1%nat.
Proof. split; reflexivity. Qed.

Example getAll_one_stale :
  GetAll (mkRing (mkDesc (<["A" := mkIngester "A" "a:9095" 100]>
                            (<["B" := mkIngester "B" "b:9095" 30]> ∅)) []) 60)
         (λ _, 120)
  = [mkIngester "A" "a:9095" 100].
Proof. vm_compute. reflexivity. Qed.

(** ** Ownership on any token list *)

Lemma tokenDiff_total tokens i token :
  tokens !! i = Some token → is_Some (tokenDiff tokens i token).
Proof.
  intros Ht. pose proof (lookup_lt_Some _ _ _ Ht) as Hlt. unfold tokenDiff.
  destruct (Nat.eqb_spec (i + 1) (length tokens)) as [Hlast|Hmore].
  - destruct (lookup_lt_is_Some_2 tokens 0%nat ltac:(lia)) as [first ->]. eauto.
  - destruct (lookup_lt_is_Some_2 tokens (i + 1)%nat ltac:(lia)) as [next ->].
    eauto.
Qed.

Lemma wrap32_range x : 0 ≤ wrap32 x ≤ MaxUint32.
Proof.
  unfold wrap32, MaxUint32. pose proof (Z.mod_pos_bound x (2 ^ 32)). lia.
Qed.

Lemma ownedLoop_dom tokens : ∀ rest i (m : gmap string Z),
  drop i tokens = rest →
  map_Forall (λ _ v, 0 ≤ v ≤ MaxUint32) m →
  ∃ m', ownedLoop tokens rest i m = Some m' ∧
        dom m' = dom m ∪ tokenHosts rest ∧
        map_Forall (λ _ v, 0 ≤ v ≤ MaxUint32) m'.
Proof.
  induction rest as [|token rest IH]; intros i m Hdrop Hrange; simpl.
  - exists m. split; [done|]. split; [|done].
    unfold tokenHosts. simpl. by rewrite union_empty_r_L.
  - assert (Ht : tokens !! i = Some token).
    { pose proof (lookup_drop tokens i 0) as Hl.
      by rewrite Hdrop, Nat.add_0_r in Hl. }
    destruct (tokenDiff_total tokens i token Ht) as [diff ->].
    destruct (IH (S i)
                (<[Ingester token :=
                     wrap32 (default 0 (m !! Ingester token) + diff)]> m))
      as (m' & Hrun & Hdom & Hrange').
    + rewrite (drop_S _ _ _ Ht) in Hdrop. by simplify_eq.
    + apply map_Forall_insert_2; [apply wrap32_range|done].
    + exists m'. split; [done|]. split; [|done].
      rewrite Hdom, dom_insert_L.
      assert (tokenHosts (token :: rest) = {[Ingester token]} ∪ tokenHosts rest)
        as -> by (unfold tokenHosts; set_solver).
      set_solver.
Qed.

(** X17: Whatever the token list, sorted or not, the ownership loop of [Collect]
    completes and leaves one total per distinct token owner, for owners
    missing from the node map as well, each total within [uint32]; without
    tokens there is no ownership gauge. *)
Theorem owned_per_token_owner r :
  ∃ m, owned r = Some m ∧
       dom m = tokenHosts (Tokens (ringDesc r)) ∧
       map_Forall (λ _ totalOwned, 0 ≤ totalOwned ≤ MaxUint32) m ∧
       length (ownershipMetrics m) = size (tokenHosts (Tokens (ringDesc r))) ∧
       (Tokens (ringDesc r) = [] → m = ∅).
Proof.
  destruct (ownedLoop_dom (Tokens (ringDesc r)) (Tokens (ringDesc r)) 0 ∅)
    as (m & Hrun & Hdom & Hrange); [done|apply map_Forall_empty|].
  rewrite dom_empty_L, union_empty_l_L in Hdom.
  exists m. split; [done|]. split; [done|]. split; [done|]. split.
  - unfold ownershipMetrics. by rewrite length_fmap, length_map_to_list,
      <- Hdom, size_dom.
  - intros Hnil. unfold owned in Hrun. rewrite Hnil in Hrun. simpl in Hrun.
    by simplify_eq.
Qed.

(** X18: When one node owns every token of a strictly sorted list of [uint32]
    tokens, a single-token ring included, its total is 2^32 - 1 and its
    ownership fraction is exactly 1. *)
Theorem owned_single_owner r id :
  Tokens (ringDesc r) ≠ [] →
  tokensStrictlySorted (Tokens (ringDesc r)) →
  tokensUint32 (Tokens (ringDesc r)) →
  Forall (λ t, Ingester t = id) (Tokens (ringDesc r)) →
  owned r = Some {[id := MaxUint32]} ∧
  (ownershipFraction MaxUint32 == 1)%Q.
Proof.
  intros Hne Hsorted Hu32 Hall. split; [|reflexivity].
  destruct (ownedLoop_spec (Tokens (ringDesc r)) Hsorted Hu32
              (Tokens (ringDesc r)) 0%nat ∅) as (m & Hm & _ & Hsum).
  - done.
  - apply map_Forall_empty.
  - unfold sumOwned, ownedBefore. rewrite map_fold_empty.
    destruct (Tokens (ringDesc r)) as [|t ts]; [done|]. simpl. lia.
  - destruct (ownedLoop_dom (Tokens (ringDesc r)) (Tokens (ringDesc r)) 0 ∅)
      as (m' & Hrun & Hdom & _); [done|apply map_Forall_empty|].
    unfold owned. rewrite Hm. rewrite Hm in Hrun. simplify_eq. f_equal.
    rewrite dom_empty_L, union_empty_l_L in Hdom.
    assert (Hhosts : tokenHosts (Tokens (ringDesc r)) = {[id]}).
    { apply set_eq. intros h. rewrite tokenHosts_elem_of, elem_of_singleton.
      rewrite Forall_forall in Hall. split.
      - intros (t & Ht & <-). by apply Hall.
      - intros ->. destruct (Tokens (ringDesc r)) as [|t ts]; [done|].
        exists t. split; [left|]. apply Hall. left. }
    rewrite Hhosts in Hdom.
    apply dom_singleton_inv_L in Hdom as [v ->].
    unfold sumOwned in Hsum. rewrite map_fold_singleton in Hsum.
    f_equal. lia.
Qed.

(** [owned_single_owner] on a ring of one token. *)
Lemma owned_single_owner_witness :
  owned (mkRing (mkDesc ∅ [mkToken 77 "A" Active]) 60)
    = Some {["A" := MaxUint32]} ∧
  (ownershipFraction MaxUint32 == 1)%Q.
Proof.
  apply (owned_single_owner (mkRing (mkDesc ∅ [mkToken 77 "A" Active]) 60) "A").
  - simpl. discriminate.
  - unfold tokensStrictlySorted. simpl. repeat constructor.
  - unfold tokensUint32, MaxUint32. simpl.
    apply Forall_cons_2; [simpl; lia|apply Forall_nil_2].
  - simpl. apply Forall_cons_2; [done|apply Forall_nil_2].
Defined.

(** On a token list that is not sorted the 32-bit differences wrap around
    and the totals no longer add up to the hash space. *)
Example owned_unsorted_wraps :
  owned (mkRing (mkDesc ∅ [mkToken 30 "C" Active; mkToken 10 "A" Active]) 60)
    = Some (<["A" := 19]> (<["C" := 4294967276]> ∅)).
Proof. vm_compute. reflexivity. Qed.

(** ** [uint32s] *)

(** X19: With both indices in range [Swap] does not panic and exchanges the two
    elements: the length and every other element stay, [Less] on the swapped
    pair answers what it answered on the pair the other way round, and a
    second [Swap] restores the slice. *)
Theorem uint32s_Swap_exchanges x i j :
  (i < uint32s_Len x)%nat → (j < uint32s_Len x)%nat →
  ∃ y, uint32s_Swap x i j = Some y ∧
       uint32s_Len y = uint32s_Len x ∧
       y !! i = x !! j ∧ y !! j = x !! i ∧
       (∀ k, k ≠ i → k ≠ j → y !! k = x !! k) ∧
       uint32s_Less y i j = uint32s_Less x j i ∧
       uint32s_Swap y i j = Some x.
Proof.
  unfold uint32s_Len. intros Hi Hj.
  destruct (lookup_lt_is_Some_2 x i Hi) as [xi Hxi].
  destruct (lookup_lt_is_Some_2 x j Hj) as [xj Hxj].
  set (y := <[j := xi]> (<[i := xj]> x)).
  assert (Hlen : length y = length x) by (subst y; by rewrite !length_insert).
  assert (Hyj : y !! j = Some xi).
  { subst y. apply list_lookup_insert_eq. by rewrite length_insert. }
  assert (Hyi : y !! i = Some xj).
  { subst y. destruct (decide (i = j)) as [->|Hne].
    - rewrite list_lookup_insert_eq by (by rewrite length_insert). congruence.
    - rewrite list_lookup_insert_ne by done. by apply list_lookup_insert_eq. }
  exists y. unfold uint32s_Swap, uint32s_Less.
  rewrite Hxi, Hxj, Hyi, Hyj. fold y.
  split; [done|]. split; [done|]. split; [done|]. split; [done|]. split.
  { intros k Hki Hkj. subst y. by rewrite !list_lookup_insert_ne. }
  split; [done|]. f_equal. apply list_eq. intros k.
  destruct (decide (k = j)) as [->|Hkj].
  { rewrite list_lookup_insert_eq; [done|]. by rewrite length_insert, Hlen. }
  rewrite list_lookup_insert_ne by done.
  destruct (decide (k = i)) as [->|Hki].
  { rewrite list_lookup_insert_eq; [done|]. by rewrite Hlen. }
  rewrite list_lookup_insert_ne by done.
  subst y. by rewrite !list_lookup_insert_ne.
Qed.

(** [uint32s_Swap_exchanges] on a slice of three. *)
Lemma uint32s_Swap_exchanges_witness :
  ∃ y, uint32s_Swap [30; 10; 20] 0 1 = Some y ∧
       uint32s_Len y = uint32s_Len [30; 10; 20] ∧
       y !! 0%nat = [30; 10; 20] !! 1%nat ∧ y !! 1%nat = [30; 10; 20] !! 0%nat ∧
       (∀ k, k ≠ 0%nat → k ≠ 1%nat → y !! k = [30; 10; 20] !! k) ∧
       uint32s_Less y 0 1 = uint32s_Less [30; 10; 20] 1 0 ∧
       uint32s_Swap y 0 1 = Some [30; 10; 20].
Proof.
  apply (uint32s_Swap_exchanges [30; 10; 20] 0 1); simpl; lia.
Defined.

Example uint32s_Swap_out_of_range : uint32s_Swap [30; 10; 20] 0 3 = None.
Proof. reflexivity. Qed.

(** ** Asking for as many replicas as there are nodes *)

(** X20: When [n] is at least the number of distinct token owners and within
    the capacity limit of [make], a read on a non-empty ring returns one
    entry for every owner, each owner once: the walk ends for lack of
    tokens, not as an error.  Beyond the capacity limit the call panics. *)
Theorem get_read_whole_ring maxCap r key n :
  Tokens (ringDesc r) ≠ [] →
  Z.of_nat (size (tokenHosts (Tokens (ringDesc r)))) ≤ n →
  (maxCap < n → GetAlloc maxCap r key n Read = Panics) ∧
  (n ≤ maxCap →
   ∃ hosts : list string,
     (∀ m, GetAlloc maxCap (withIngesters r m) key n Read
           = Returns (mapIndex m <$> hosts) None) ∧
     GetAlloc maxCap r key n Read
       = Returns (mapIndex (Ingesters (ringDesc r)) <$> hosts) None ∧
     NoDup hosts ∧
     list_to_set hosts = tokenHosts (Tokens (ringDesc r))).
Proof.
  intros Hne Hn. assert (0 ≤ n) as Hn0 by lia.
  split; [intros Hcap; apply GetAlloc_beyond; [done|by right]|]. intros Hcap.
  destruct (resolvedHosts_spec r key n Read Hne)
    as (start & st & _ & _ & _ & Hinv & Hend & Hhosts).
  exists (resolvedHosts r key n Read).
  split; [intros m; rewrite GetAlloc_within by done; by apply Get_resolvedHosts|].
  split; [rewrite GetAlloc_within by done; by apply Get_resolvedHosts_self|].
  destruct Hhosts as [Hnd Hseen Hcount _ _]. split; [done|].
  simpl in Hcount.
  pose proof (inv_n _ _ _ _ _ Hinv) as Hwn.
  pose proof (inv_hosts _ _ _ _ _ Hinv) as Hdh.
  pose proof (leavingFirstSeen_bounds
                (visitedTokens (Tokens (ringDesc r)) start (w_iterations st)) ∅)
    as Hfirst.
  pose proof (visitedTokens_subseteq (Tokens (ringDesc r)) start (w_iterations st))
    as Hsub.
  rewrite <- Hdh in Hsub.
  assert (Hall : w_distinctHosts st = tokenHosts (Tokens (ringDesc r))).
  { destruct (walk_end _ _ _ _ _ Hn0 Hinv Hend) as [Hmet|[Hall _]]; [|done].
    apply set_subseteq_size_eq; [done|]. lia. }
  rewrite <- Hall. apply set_subseteq_size_eq.
  - intros h Hh. apply Hseen. by apply elem_of_list_to_set in Hh.
  - rewrite size_list_to_set by done. lia.
Qed.

(** [get_read_whole_ring] for five replicas on a ring of three nodes, with
    a capacity limit of 1000. *)
Lemma get_read_whole_ring_witness :
  (1000 < 5 → GetAlloc 1000 ringLeavingB 15 5 Read = Panics) ∧
  (5 ≤ 1000 →
   ∃ hosts : list string,
     (∀ m, GetAlloc 1000 (withIngesters ringLeavingB m) 15 5 Read
           = Returns (mapIndex m <$> hosts) None) ∧
     GetAlloc 1000 ringLeavingB 15 5 Read
       = Returns (mapIndex (Ingesters (ringDesc ringLeavingB)) <$> hosts) None ∧
     NoDup hosts ∧
     list_to_set hosts = tokenHosts (Tokens (ringDesc ringLeavingB))).
Proof.
  apply (get_read_whole_ring 1000 ringLeavingB 15 5).
  - simpl. discriminate.
  - vm_compute. discriminate.
Defined.
